(** * Candidate generation, category filtering and priority merge of app.py

    A shallow embedding of the request path of [app.py]: the metadata
    resolver [get_meta_by_item_id], the candidate generators
    [als_recommend] and [co_view_recommend], the inline popularity
    generator, [filter_by_categories], the priority merge with its backfill
    pass, and the attribution loop.

    Modelling conventions.
    - Item and user identifiers are text ([string]); Python [int]s are
      [Z].  A cell of the product table is kept as pandas hands it over,
      a [cell]: a text, a number or a missing value.  The
      category-relationship table is only ever read through [str], so its
      cells are text.
    - A Python [dict] is a [gmap], a Python [set] a [gset]; a metadata
      record is itself a [dict] from field name to cell and is kept as one.
    - Code that can raise returns a [result]; [try_except] is the
      [try: ... except Exception: ...] block.
    - The slider value [N] is a Python [int]; the widget only produces
      values from 1 to 20. *)

From Stdlib Require Import ZArith QArith Qcanon.
From stdpp Require Import numbers.
From stdpp Require Import gmap strings list fin_maps pretty.
Local Open Scope string_scope.
Local Open Scope list_scope.
Local Open Scope Z_scope.

(** ** Exceptions *)

Inductive exn : Type :=
  | ValueError          (* raised by the label encoders on an unseen label *)
  | ModelError.         (* anything raised inside the factorization model *)

Inductive result (A : Type) : Type :=
  | Ok (a : A)
  | Raise (e : exn).
Arguments Ok {A} a.
Arguments Raise {A} e.

(** Sequencing: an exception skips the rest of the block.  With this
    instance stdpp's [x ← r; k] is the error monad's bind. *)
#[export] Instance result_bind : MBind result := λ A B k r,
  match r with
  | Ok a => k a
  | Raise e => Raise e
  end.

(** [try: body  except Exception: handler]. *)
Definition try_except {A : Type} (body : result A) (handler : result A) : result A :=
  match body with
  | Ok a => Ok a
  | Raise _ => handler
  end.

(** A list comprehension whose element expression can raise: the first
    exception aborts the whole comprehension. *)
Fixpoint comprehension {A B : Type} (f : A → result B) (l : list A) : result (list B) :=
  match l with
  | [] => Ok []
  | x :: rest =>
      y ← f x;
      ys ← comprehension f rest;
      Ok (y :: ys)
  end.

Definition returns {A : Type} (r : result A) : Prop := ∃ a, r = Ok a.

(** ** Python helpers *)

(** [l[:k]] for an arbitrary integer [k]: a negative bound counts from the
    end of the list. *)
Definition slice_to {A : Type} (k : Z) (l : list A) : list A :=
  if k <? 0 then take (Z.to_nat (Z.of_nat (length l) + k)) l
  else take (Z.to_nat k) l.

(** [len(l)]. *)
Definition len {A : Type} (l : list A) : Z := Z.of_nat (length l).

(** [x in l] on a list. *)
Definition in_list (x : string) (l : list string) : bool := bool_decide (x ∈ l).

(** Truthiness of a text value: the empty string is falsy. *)
Definition truthy (s : string) : bool := bool_decide (s ≠ "").

(** [str(code)] for an integer code. *)
Definition str (code : Z) : string := pretty code.

(** ** Cells of the product table

    [load_artifacts] stores the cells of [prod_meta.csv] as it finds them
    (lines 78-82 and 87-90): a [str], a number, or NaN for a missing
    value.  Numbers are compared by value, whether pandas read them as
    integers or as floats.  NaN is unequal to everything, itself included,
    so that a set finds a NaN only when it holds the very same object;
    [obj] names the object. *)
Inductive cell : Type :=
  | Text (s : string)
  | Number (q : Qc)
  | NaN (obj : positive).

#[export] Instance cell_eq_dec : EqDecision cell.
Proof. solve_decision. Defined.

#[export] Instance cell_countable : Countable cell :=
  inj_countable'
    (λ c, match c with
          | Text s => inl s
          | Number q => inr (inl q)
          | NaN obj => inr (inr obj)
          end)
    (λ x, match x with
          | inl s => Text s
          | inr (inl q) => Number q
          | inr (inr obj) => NaN obj
          end)
    (λ c, match c with Text _ | Number _ | NaN _ => eq_refl end).

(** Truthiness of a cell: the empty text and zero are falsy, NaN is not. *)
Definition truthy_cell (c : cell) : bool :=
  match c with
  | Text s => truthy s
  | Number q => bool_decide (q ≠ 0%Qc)
  | NaN _ => true
  end.

(** ** sklearn's LabelEncoder *)

Record LabelEncoder : Type := { classes_ : list string }.

(** Index of the first occurrence of [x] in [l]; on the sorted,
    duplicate-free [classes_] of a fitted encoder this is the position that
    the encoder's binary search finds. *)
Fixpoint index_of (x : string) (l : list string) : option nat :=
  match l with
  | [] => None
  | y :: rest => if decide (x = y) then Some 0%nat else S <$> index_of x rest
  end.

(** [int(le.transform([x])[0])]: a label outside [classes_] raises. *)
Definition transform (le : LabelEncoder) (x : string) : result Z :=
  match index_of x (classes_ le) with
  | Some i => Ok (Z.of_nat i)
  | None => Raise ValueError
  end.

(** [le.inverse_transform([c])[0]]: a code outside [0 .. len(classes_) - 1]
    raises. *)
Definition inverse_transform (le : LabelEncoder) (c : Z) : result string :=
  if (0 <=? c) && (c <? len (classes_ le)) then
    match classes_ le !! Z.to_nat c with
    | Some x => Ok x
    | None => Raise ValueError
    end
  else Raise ValueError.

(** ** Artifacts *)

(** One row of the category-relationship table, as the [str] of each cell
    by column name (the loader reads this table through [str] only); a
    column that the file does not have is not a key of the row. *)
Abbreviation csv_row := (gmap string string) (only parsing).

(** [row.get(col, "")] followed by [str]. *)
Definition row_get (row : csv_row) (col : string) : string :=
  default "" (row !! col).

(** The category-relationship table as found on disk: absent, unreadable,
    or a list of rows. *)
Inductive cat_rel_file : Type :=
  | CatRelAbsent
  | CatRelUnreadable
  | CatRelRows (rows : list csv_row).

(** [cat_rel_map.setdefault(mc, set()).add(rc)] for one row
    (app.py, lines 99-102). *)
Definition add_relationship (m : gmap string (gset string)) (row : csv_row)
  : gmap string (gset string) :=
  let mc := row_get row "main_category" in
  let rc := row_get row "related_category" in
  <[mc := default ∅ (m !! mc) ∪ {[rc]}]> m.

Definition load_cat_rel_map (f : cat_rel_file) : gmap string (gset string) :=
  match f with
  | CatRelAbsent => ∅
  | CatRelUnreadable => ∅
  | CatRelRows rows => foldl add_relationship ∅ rows
  end.

(** The dictionary returned by [load_artifacts].  [model] is
    [model.recommend(u_idx, user_item_matrix, N=N)] with the interaction
    matrix folded in: rows of (item code, score), or an exception. *)
Record Artifacts : Type := {
  model : Z → Z → result (list (Z * Q));
  user_le : LabelEncoder;
  item_le : LabelEncoder;
  co_view_top : gmap string (list Z);
  popular_items : list Z;
  prod_meta_index : gmap string (gmap string cell);
  prod_meta_by_itemid : gmap string (gmap string cell);
  cat_rel_map : gmap string (gset string)
}.

(** The default of the fallback lookup: every field empty. *)
Definition empty_meta : gmap string cell :=
  <["title" := Text ""]>
    (<["category_id" := Text ""]> (<["brand" := Text ""]> (<["price" := Text ""]> ∅))).

Section Helpers.
Variable art : Artifacts.

(** The body of the [try] block of [get_meta_by_item_id] (lines 138-142):
    [Some meta] when the block returns, [None] when it falls through.  A
    dictionary is truthy when it is not empty. *)
Definition meta_via_code (item_id : string) : result (option (gmap string cell)) :=
  code ← transform (item_le art) item_id;
  match prod_meta_index art !! str code with
  | Some meta => if bool_decide (meta ≠ ∅) then Ok (Some meta) else Ok None
  | None => Ok None
  end.

(** The code-indexed lookup yields nothing usable for [item_id]: the
    encoder does not know it, or its code has no (truthy) entry. *)
Definition code_lookup_misses (item_id : string) : Prop :=
  ∀ code meta, transform (item_le art) item_id = Ok code →
               prod_meta_index art !! str code = Some meta → meta = ∅.

(** Lines 135-146. *)
Definition get_meta_by_item_id (item_id : string) : result (gmap string cell) :=
  match try_except (meta_via_code item_id) (Ok None) with
  | Ok (Some meta) => Ok meta
  | Ok None => Ok (default empty_meta (prod_meta_by_itemid art !! item_id))
  | Raise e => Raise e
  end.

(** Lines 148-157; [map fst recs] is [[int(x[0]) for x in recs]]. *)
Definition als_recommend (user_id : string) (N : Z) : result (list string) :=
  if negb (in_list user_id (classes_ (user_le art))) then Ok []
  else
    try_except
      (u_idx ← transform (user_le art) user_id;
       recs ← model art u_idx N;
       let item_codes := map fst recs in
       comprehension (inverse_transform (item_le art)) item_codes)
      (Ok []).

(** Lines 159-165. *)
Definition co_view_recommend (item_id : string) (N : Z) : result (list string) :=
  try_except
    (code ← transform (item_le art) item_id;
     let related_codes := slice_to N (default [] (co_view_top art !! str code)) in
     comprehension (inverse_transform (item_le art)) related_codes)
    (Ok []).

(** [meta.get("category_id") in allowed_categories]; a missing key gives
    [None], which no set of cells contains. *)
Definition category_in (meta : gmap string cell) (allowed : gset cell) : bool :=
  match meta !! "category_id" with
  | Some c => bool_decide (c ∈ allowed)
  | None => false
  end.

(** The [for it in candidate_item_ids] loop, [out] being the list built
    so far. *)
Fixpoint filter_loop (allowed : gset cell) (candidate_item_ids out : list string)
  : result (list string) :=
  match candidate_item_ids with
  | [] => Ok out
  | it :: rest =>
      meta ← get_meta_by_item_id it;
      if category_in meta allowed then filter_loop allowed rest (out ++ [it])
      else filter_loop allowed rest out
  end.

(** Lines 167-175. *)
Definition filter_by_categories (candidate_item_ids : list string)
    (allowed_categories : option (gset cell)) : result (list string) :=
  match allowed_categories with
  | None => Ok candidate_item_ids
  | Some allowed => filter_loop allowed candidate_item_ids []
  end.

(** The filter's test as a predicate on candidates: does [it] survive
    the filter for [allowed]? *)
Definition keeps (allowed : gset cell) (it : string) : bool :=
  match get_meta_by_item_id it with
  | Ok meta => category_in meta allowed
  | Raise _ => false
  end.

(** One row of the table built by [show_item_info]. *)
Definition item_row (it : string) (meta : gmap string cell) : gmap string cell :=
  <["item_id" := Text it]>
    (<["title" := default (Text "") (meta !! "title")]>
      (<["brand" := default (Text "") (meta !! "brand")]>
        (<["category" := default (Text "") (meta !! "category_id")]>
          (<["price" := default (Text "") (meta !! "price")]> ∅)))).

(** Lines 177-188. *)
Definition show_item_info (items : list string) : result (list (gmap string cell)) :=
  comprehension (λ it, meta ← get_meta_by_item_id it; Ok (item_row it meta)) items.

End Helpers.

(** ** The priority merge *)

(** The inner loop, shared by the three priority groups (lines 229-233)
    and by the backfill pass (lines 239-243):
<<
    for it in group:
        if it not in final: final.append(it)
        if len(final) >= N: break
>> *)
Fixpoint merge_group (N : Z) (group final : list string) : list string :=
  match group with
  | [] => final
  | it :: rest =>
      let final' := if in_list it final then final else final ++ [it] in
      if N <=? len final' then final' else merge_group N rest final'
  end.

(** The outer loop over the groups, with its own [break] (lines 228-235). *)
Fixpoint merge_groups (N : Z) (groups : list (list string)) (final : list string)
  : list string :=
  match groups with
  | [] => final
  | group :: rest =>
      let final' := merge_group N group final in
      if N <=? len final' then final' else merge_groups N rest final'
  end.

(** Priority merge followed by the backfill from the unfiltered popularity
    candidates (lines 227-243): the value of [final] when the display
    starts. *)
Definition merge (als_f co_f pop_f pop_cands : list string) (N : Z) : list string :=
  let final := merge_groups N [als_f; co_f; pop_f] [] in
  if len final <? N then merge_group N pop_cands final else final.

(** Number of distinct identifiers of a list. *)
Definition distinct_count (l : list string) : Z := len (remove_dups l).

(** ** Attribution *)

Definition Personalized : string := "Personalized (ALS)".
Definition Co_view : string := "Co-view".
Definition Popular : string := "Popular".

(** The body of the attribution loop (lines 252-256). *)
Definition reason_for (als_f co_f : list string) (it : string) : string :=
  let reason := Popular in
  if in_list it als_f then Personalized
  else if in_list it co_f then Co_view
  else reason.

Definition attribution (als_f co_f final : list string) : list string :=
  map (reason_for als_f co_f) final.

(** ** One press of the button

    Everything the handler of "Get Recommendations" computes (lines
    205-257), in the order in which it computes it. *)

Record Recommendation : Type := {
  allowed_categories : option (gset cell);
  als_cands : list string;
  co_cands : list string;
  pop_cands : list string;
  als_f : list string;
  co_f : list string;
  pop_f : list string;
  final : list string;
  df_show : list (gmap string cell);
  reasons : list string
}.

Section Request.
Variable art : Artifacts.

(** [cat_rel_map[curr_cat]] when [curr_cat in cat_rel_map] (line 213).
    The keys of the map are texts (lines 100-102), so only a text cell can
    be one of them: a number never equals a [str], nor does NaN. *)
Definition related_categories (curr_cat : cell) : option (gset string) :=
  match curr_cat with
  | Text s => cat_rel_map art !! s
  | Number _ => None
  | NaN _ => None
  end.

(** Same category as the current item, plus the related ones
    (lines 207-214); the related ones enter the set as the texts the map
    holds. *)
Definition determine_allowed (item_id_input : string) : result (option (gset cell)) :=
  if truthy item_id_input then
    meta ← get_meta_by_item_id art item_id_input;
    match meta !! "category_id" with
    | Some curr_cat =>
        if truthy_cell curr_cat then
          match related_categories curr_cat with
          | Some related => Ok (Some ({[curr_cat]} ∪ set_map Text related))
          | None => Ok (Some {[curr_cat]})
          end
        else Ok None
    | None => Ok None
    end
  else Ok None.

(** The inline popularity generator (line 219). *)
Definition popular_candidates (N : Z) : result (list string) :=
  match popular_items art with
  | [] => Ok []
  | _ :: _ =>
      comprehension (inverse_transform (item_le art)) (slice_to (N * 6) (popular_items art))
  end.

Definition get_recommendations (user_id_input item_id_input : string) (N : Z)
  : result Recommendation :=
  allowed ← determine_allowed item_id_input;
  alsc ← als_recommend art user_id_input (N * 4);
  coc ← co_view_recommend art item_id_input (N * 4);
  popc ← popular_candidates N;
  alsf ← filter_by_categories art alsc allowed;
  cof ← filter_by_categories art coc allowed;
  popf ← filter_by_categories art popc allowed;
  let fin := merge alsf cof popf popc N in
  df ← show_item_info art fin;
  Ok {| allowed_categories := allowed;
        als_cands := alsc; co_cands := coc; pop_cands := popc;
        als_f := alsf; co_f := cof; pop_f := popf;
        final := fin; df_show := df;
        reasons := attribution alsf cof fin |}.

End Request.

(** The contract of the factorization library: asked for [k] rows, the
    model answers with at most [k]. *)
Definition honours_count (m : Z → Z → result (list (Z * Q))) : Prop :=
  ∀ u_idx k recs, 0 ≤ k → m u_idx k = Ok recs → len recs ≤ k.

(** ** Sample artifacts *)

Definition meta_with (category : cell) (title : string) : gmap string cell :=
  <["title" := Text title]>
    (<["category_id" := category]>
      (<["brand" := Text "acme"]> (<["price" := Number (Q2Qc (999 # 100))]> ∅))).

Definition meta_of (category title : string) : gmap string cell :=
  meta_with (Text category) title.

(** A small consistent catalogue: three items, of which [p3] has no
    metadata, one known user, and a model that honours the requested
    count. *)
Definition art_demo : Artifacts := {|
  model := λ _ k, Ok (slice_to k [(2, (9 # 10)%Q); (0, (4 # 10)%Q)]);
  user_le := {| classes_ := ["u1"] |};
  item_le := {| classes_ := ["p1"; "p2"; "p3"] |};
  co_view_top := {[ "0" := [1; 2] ]};
  popular_items := [0; 1; 2];
  prod_meta_index := {[ "0" := <["item_id" := Text "p1"]> (meta_of "c1" "kettle") ]};
  prod_meta_by_itemid := {[ "p2" := meta_of "c1" "teapot" ]};
  cat_rel_map :=
    load_cat_rel_map
      (CatRelRows [ <["main_category" := "c1"]> {[ "related_category" := "c2" ]} ])
|}.

(** A popularity list that names a code the item encoder never saw. *)
Definition art_stale_popular : Artifacts := {|
  model := λ _ _, Raise ModelError;
  user_le := {| classes_ := ["u1"] |};
  item_le := {| classes_ := ["p1"] |};
  co_view_top := ∅;
  popular_items := [5];
  prod_meta_index := ∅;
  prod_meta_by_itemid := {[ "p1" := meta_of "c1" "kettle" ]};
  cat_rel_map := ∅
|}.

(** A popularity list whose first twelve entries repeat one code. *)
Definition art_repeated_popular : Artifacts := {|
  model := λ _ _, Ok [];
  user_le := {| classes_ := [] |};
  item_le := {| classes_ := ["p0"; "p1"] |};
  co_view_top := ∅;
  popular_items := replicate 12 0 ++ [1];
  prod_meta_index := ∅;
  prod_meta_by_itemid := ∅;
  cat_rel_map := ∅
|}.


(** Numeric category identifiers: the product table holds them as numbers,
    the relationship map as the texts "12" and "13", so the lookup of the
    current category in the map never hits. *)
Definition art_numeric_categories : Artifacts := {|
  model := λ _ _, Ok [];
  user_le := {| classes_ := [] |};
  item_le := {| classes_ := ["p1"; "p2"; "p3"] |};
  co_view_top := ∅;
  popular_items := [1; 0; 2];
  prod_meta_index := ∅;
  prod_meta_by_itemid :=
    <["p1" := meta_with (Number (Qc_of_Z 12)) "kettle"]>
      (<["p2" := meta_with (Number (Qc_of_Z 13)) "teapot"]>
        {[ "p3" := meta_with (Number (Qc_of_Z 12)) "mug" ]});
  cat_rel_map :=
    load_cat_rel_map
      (CatRelRows [ <["main_category" := "12"]> {[ "related_category" := "13" ]} ])
|}.

(** ** Notions used by the further properties *)

(** [if it not in final: final.append(it)]. *)
Definition append_new (final : list string) (it : string) : list string :=
  if in_list it final then final else final ++ [it].

(** The same loop without its [break]s, over one list of candidates. *)
Definition absorb (final group : list string) : list string :=
  foldl append_new final group.

(** The distinct identifiers of a list, in the order of their first
    occurrence. *)
Definition distinct_in_order (l : list string) : list string := absorb [] l.


(** [c] is a code of the encoder: an index into [classes_]. *)
Definition known_code (le : LabelEncoder) (c : Z) : Prop :=
  0 ≤ c < len (classes_ le).

(** The record of a request that went through; all fields empty for one
    that raised. *)
Definition the_result (r : result Recommendation) : Recommendation :=
  match r with
  | Ok rec => rec
  | Raise _ =>
      {| allowed_categories := None; als_cands := []; co_cands := []; pop_cands := [];
         als_f := []; co_f := []; pop_f := []; final := []; df_show := [];
         reasons := [] |}
  end.

(** * Properties *)

(** ** Scenarios of the merge *)

Example merge_scenario_quota :
  merge ["p3"; "p7"] ["p7"; "p9"] ["p9"; "p1"] ["p1"; "p2"; "p3"; "p4"; "p5"] 4
  = ["p3"; "p7"; "p9"; "p1"].
Proof. reflexivity. Qed.

Example merge_scenario_backfill : merge [] [] [] ["p1"; "p2"] 5 = ["p1"; "p2"].
Proof. reflexivity. Qed.

Example merge_zero : merge ["p1"] [] [] [] 0 = ["p1"].
Proof. reflexivity. Qed.

(** ** Results and slices *)

Lemma try_except_returns {A : Type} (body : result A) (a : A) :
  returns (try_except body (Ok a)).
Proof. destruct body as [b|e]; simpl; [by exists b | by exists a]. Qed.

Lemma comprehension_length {A B : Type} (f : A → result B) (l : list A) (ys : list B) :
  comprehension f l = Ok ys → length ys = length l.
Proof.
  revert ys. induction l as [|x rest IH]; intros ys; simpl.
  - by intros [= <-].
  - destruct (f x) as [y|e]; simpl; [| done].
    destruct (comprehension f rest) as [ys'|e]; simpl; [| done].
    intros [= <-]. simpl. f_equal. by apply IH.
Qed.

Lemma comprehension_total {A B : Type} (f : A → result B) (l : list A) :
  (∀ x, x ∈ l → returns (f x)) → returns (comprehension f l).
Proof.
  induction l as [|x rest IH]; intros Hf; simpl; [by exists []|].
  destruct (Hf x) as [y ->]; [left|]. simpl.
  destruct IH as [ys ->]; [intros z Hz; apply Hf; by right|]. simpl.
  by exists (y :: ys).
Qed.

Lemma slice_to_len {A : Type} (k : Z) (l : list A) :
  0 ≤ k → len (slice_to k l) ≤ k.
Proof.
  intros Hk. unfold slice_to, len.
  destruct (Z.ltb_spec k 0); [lia|]. rewrite length_take. lia.
Qed.

Lemma slice_to_take {A : Type} (k : Z) (l : list A) :
  0 ≤ k → slice_to k l = take (Z.to_nat k) l.
Proof. intros Hk. unfold slice_to. destruct (Z.ltb_spec k 0); [lia | done]. Qed.

(** ** The priority merge *)

Section MergeFacts.
Variable N : Z.

Lemma len_app_one (l : list string) (x : string) : len (l ++ [x]) = len l + 1.
Proof. unfold len. rewrite length_app. simpl. lia. Qed.

(** The loop only ever appends, and only items of the group. *)
Lemma merge_group_extends (group final : list string) :
  ∃ ext, merge_group N group final = final ++ ext ∧ ∀ x, x ∈ ext → x ∈ group.
Proof.
  revert final. induction group as [|it rest IH]; intros final; simpl.
  - exists []. split; [by rewrite app_nil_r | intros x Hx; by apply elem_of_nil in Hx].
  - unfold in_list. case_bool_decide as Hin.
    + destruct (N <=? len final).
      * exists []. split; [by rewrite app_nil_r | intros x Hx; by apply elem_of_nil in Hx].
      * destruct (IH final) as (ext & -> & Hext).
        exists ext. split; [done | intros x Hx; right; auto].
    + destruct (N <=? len (final ++ [it])).
      * exists [it]. split; [done | intros x Hx; apply list_elem_of_singleton in Hx; subst; left].
      * destruct (IH (final ++ [it])) as (ext & -> & Hext).
        exists (it :: ext). split; [by rewrite <- app_assoc |].
        intros x Hx. apply elem_of_cons in Hx as [-> | Hx]; [left | right; auto].
Qed.

Lemma merge_group_NoDup (group final : list string) :
  NoDup final → NoDup (merge_group N group final).
Proof.
  revert final. induction group as [|it rest IH]; intros final Hnd; simpl; [done|].
  unfold in_list. case_bool_decide as Hin.
  - destruct (N <=? len final); auto.
  - assert (NoDup (final ++ [it])) as Hnd'.
    { apply NoDup_app. split_and!; [done | | apply NoDup_singleton].
      intros x Hx Hx'. apply list_elem_of_singleton in Hx'. by subst. }
    destruct (N <=? len (final ++ [it])); auto.
Qed.

(** Entered below the quota, the loop stops at the quota. *)
Lemma merge_group_len_le (group final : list string) :
  len final < N → len (merge_group N group final) ≤ N.
Proof.
  revert final. induction group as [|it rest IH]; intros final Hlt; simpl; [lia|].
  unfold in_list. case_bool_decide as Hin.
  - destruct (Z.leb_spec N (len final)); [lia | auto].
  - destruct (Z.leb_spec N (len (final ++ [it]))) as [Hge | Hlt'].
    + rewrite len_app_one in *. lia.
    + auto.
Qed.

(** Left below the quota, the loop has seen the whole group. *)
Lemma merge_group_exhausts (group final : list string) :
  len (merge_group N group final) < N →
  ∀ x, x ∈ group → x ∈ merge_group N group final.
Proof.
  revert final. induction group as [|it rest IH]; intros final Hlt x Hx; simpl in *.
  { by apply elem_of_nil in Hx. }
  revert Hlt. unfold in_list. case_bool_decide as Hin.
  - destruct (Z.leb_spec N (len final)) as [Hge | Hlt']; intros Hlt; [lia|].
    apply elem_of_cons in Hx as [-> | Hx]; [| by apply IH].
    destruct (merge_group_extends rest final) as (ext & -> & _).
    apply elem_of_app; by left.
  - destruct (Z.leb_spec N (len (final ++ [it]))) as [Hge | Hlt']; intros Hlt; [lia|].
    apply elem_of_cons in Hx as [-> | Hx]; [| by apply IH].
    destruct (merge_group_extends rest (final ++ [it])) as (ext & -> & _).
    apply elem_of_app; left. apply elem_of_app; right. left.
Qed.

Lemma merge_group_keeps (group final : list string) (x : string) :
  x ∈ final → x ∈ merge_group N group final.
Proof.
  intros Hx. destruct (merge_group_extends group final) as (ext & -> & _).
  apply elem_of_app; by left.
Qed.

Lemma merge_groups_extends (groups : list (list string)) (final : list string) :
  ∃ ext, merge_groups N groups final = final ++ ext
         ∧ ∀ x, x ∈ ext → ∃ group, group ∈ groups ∧ x ∈ group.
Proof.
  revert final. induction groups as [|group rest IH]; intros final; simpl.
  - exists []. split; [by rewrite app_nil_r | intros x Hx; by apply elem_of_nil in Hx].
  - destruct (merge_group_extends group final) as (e1 & He1 & Hsub1).
    destruct (N <=? len (merge_group N group final)).
    + exists e1. split; [done|]. intros x Hx. exists group. split; [left | auto].
    + destruct (IH (merge_group N group final)) as (e2 & -> & Hsub2).
      exists (e1 ++ e2). split; [by rewrite He1, <- app_assoc |].
      intros x Hx. apply elem_of_app in Hx as [Hx | Hx].
      * exists group. split; [left | auto].
      * destruct (Hsub2 x Hx) as (g & Hg & Hxg). exists g. split; [by right | done].
Qed.

Lemma merge_groups_NoDup (groups : list (list string)) (final : list string) :
  NoDup final → NoDup (merge_groups N groups final).
Proof.
  revert final. induction groups as [|group rest IH]; intros final Hnd; simpl; [done|].
  pose proof (merge_group_NoDup group final Hnd).
  destruct (N <=? len (merge_group N group final)); auto.
Qed.

Lemma merge_groups_len_le (groups : list (list string)) (final : list string) :
  len final < N → len (merge_groups N groups final) ≤ N.
Proof.
  revert final. induction groups as [|group rest IH]; intros final Hlt; simpl; [lia|].
  pose proof (merge_group_len_le group final Hlt).
  destruct (Z.leb_spec N (len (merge_group N group final))); [lia | auto].
Qed.

Lemma merge_groups_exhausts (groups : list (list string)) (final : list string) :
  len (merge_groups N groups final) < N →
  ∀ group x, group ∈ groups → x ∈ group → x ∈ merge_groups N groups final.
Proof.
  revert final. induction groups as [|g rest IH]; intros final Hlt group x Hg Hx; simpl in *.
  { by apply elem_of_nil in Hg. }
  revert Hlt.
  destruct (Z.leb_spec N (len (merge_group N g final))) as [Hge | Hlt']; intros Hlt; [lia|].
  apply elem_of_cons in Hg as [-> | Hg]; [| by eapply IH].
  destruct (merge_groups_extends rest (merge_group N g final)) as (ext & -> & _).
  apply elem_of_app; left. by apply merge_group_exhausts.
Qed.

Lemma merge_NoDup (als_f co_f pop_f pop_cands : list string) :
  NoDup (merge als_f co_f pop_f pop_cands N).
Proof.
  unfold merge.
  pose proof (merge_groups_NoDup [als_f; co_f; pop_f] [] (NoDup_nil_2)) as Hnd.
  destruct (len (merge_groups N [als_f; co_f; pop_f] []) <? N); [|done].
  by apply merge_group_NoDup.
Qed.

Lemma merge_len_le (als_f co_f pop_f pop_cands : list string) :
  1 ≤ N → len (merge als_f co_f pop_f pop_cands N) ≤ N.
Proof.
  intros HN. unfold merge.
  destruct (Z.ltb_spec (len (merge_groups N [als_f; co_f; pop_f] [])) N) as [Hlt | Hge].
  - by apply merge_group_len_le.
  - apply merge_groups_len_le. unfold len. simpl. lia.
Qed.

Lemma merge_sources (als_f co_f pop_f pop_cands : list string) (x : string) :
  x ∈ merge als_f co_f pop_f pop_cands N →
  x ∈ als_f ∨ x ∈ co_f ∨ x ∈ pop_f ∨ x ∈ pop_cands.
Proof.
  unfold merge.
  destruct (merge_groups_extends [als_f; co_f; pop_f] []) as (e1 & -> & Hsub1).
  assert (∀ y, y ∈ e1 → y ∈ als_f ∨ y ∈ co_f ∨ y ∈ pop_f ∨ y ∈ pop_cands) as Hprio.
  { intros y Hy. destruct (Hsub1 y Hy) as (g & Hg & Hyg).
    repeat (apply elem_of_cons in Hg as [-> | Hg]; [tauto|]).
    by apply elem_of_nil in Hg. }
  simpl. destruct (len e1 <? N); [| by auto].
  destruct (merge_group_extends pop_cands e1) as (e2 & -> & Hsub2).
  intros Hx. apply elem_of_app in Hx as [Hx | Hx]; [by auto |].
  do 3 right. by apply Hsub2.
Qed.

Lemma merge_exhausts (als_f co_f pop_f pop_cands : list string) (x : string) :
  len (merge als_f co_f pop_f pop_cands N) < N →
  x ∈ als_f ∨ x ∈ co_f ∨ x ∈ pop_f ∨ x ∈ pop_cands →
  x ∈ merge als_f co_f pop_f pop_cands N.
Proof.
  unfold merge.
  destruct (Z.ltb_spec (len (merge_groups N [als_f; co_f; pop_f] [])) N) as [Hlt | Hge];
    intros Hshort Hx; [| lia].
  destruct Hx as [Hx | [Hx | [Hx | Hx]]].
  4: by apply merge_group_exhausts.
  all: apply merge_group_keeps;
    eapply merge_groups_exhausts; [done | | exact Hx];
    repeat first [apply list_elem_of_here | apply list_elem_of_further].
Qed.


End MergeFacts.


Lemma NoDup_incl_len (l k : list string) :
  NoDup l → (∀ x, x ∈ l → x ∈ k) → len l ≤ len k.
Proof.
  intros Hnd Hsub. unfold len. apply inj_le.
  apply submseteq_length. by apply NoDup_submseteq.
Qed.

Lemma merge_length (N : Z) (als_f co_f pop_f pop_cands : list string) :
  1 ≤ N →
  len (merge als_f co_f pop_f pop_cands N)
  = Z.min N (distinct_count (als_f ++ co_f ++ pop_f ++ pop_cands)).
Proof.
  intros HN. unfold distinct_count.
  set (F := merge als_f co_f pop_f pop_cands N).
  set (U := remove_dups (als_f ++ co_f ++ pop_f ++ pop_cands)).
  assert (len F ≤ len U) as HFU.
  { apply NoDup_incl_len; [apply merge_NoDup|].
    intros x Hx. unfold U. rewrite elem_of_remove_dups. apply merge_sources in Hx.
    rewrite !elem_of_app. tauto. }
  pose proof (merge_len_le N als_f co_f pop_f pop_cands HN) as HFN. fold F in HFN.
  destruct (Z.lt_ge_cases (len F) N) as [Hshort | Hfull]; [| lia].
  assert (len U ≤ len F); [| lia].
  apply NoDup_incl_len; [apply NoDup_remove_dups|].
  intros x Hx. unfold U in Hx. rewrite elem_of_remove_dups in Hx.
  apply merge_exhausts; [done|].
  rewrite !elem_of_app in Hx. tauto.
Qed.


(** ** Resolver, generators and filter *)

Section HelperFacts.
Variable art : Artifacts.

Lemma get_meta_by_item_id_returns (item_id : string) :
  returns (get_meta_by_item_id art item_id).
Proof.
  unfold get_meta_by_item_id.
  destruct (meta_via_code art item_id) as [[meta|]|e]; simpl; by eexists.
Qed.

(** A truthy entry of the code-indexed table wins. *)
Lemma get_meta_by_code (item_id : string) (code : Z) (meta : gmap string cell) :
  transform (item_le art) item_id = Ok code →
  prod_meta_index art !! str code = Some meta →
  meta ≠ ∅ →
  get_meta_by_item_id art item_id = Ok meta.
Proof.
  intros Ht Hm Hne. unfold get_meta_by_item_id, meta_via_code.
  rewrite Ht. simpl. rewrite Hm. by rewrite bool_decide_true.
Qed.

(** Without one, the identifier-indexed table decides. *)
Lemma get_meta_fallback (item_id : string) :
  code_lookup_misses art item_id →
  get_meta_by_item_id art item_id
  = Ok (default empty_meta (prod_meta_by_itemid art !! item_id)).
Proof.
  intros Hfail. unfold get_meta_by_item_id, meta_via_code.
  destruct (transform (item_le art) item_id) as [code|e] eqn:Ht; simpl; [| done].
  destruct (prod_meta_index art !! str code) as [meta|] eqn:Hm; [| done].
  rewrite (Hfail code meta Ht Hm).
  rewrite bool_decide_false; [done | intros Hne; by apply Hne].
Qed.

Lemma als_recommend_returns (user_id : string) (N : Z) :
  returns (als_recommend art user_id N).
Proof.
  unfold als_recommend.
  destruct (negb _); [by exists [] | apply try_except_returns].
Qed.

Lemma co_view_recommend_returns (item_id : string) (N : Z) :
  returns (co_view_recommend art item_id N).
Proof. apply try_except_returns. Qed.


Lemma filter_loop_spec (allowed : gset cell) (cands out : list string) :
  filter_loop art allowed cands out = Ok (out ++ List.filter (keeps art allowed) cands).
Proof.
  revert out. induction cands as [|it rest IH]; intros out; simpl.
  - by rewrite app_nil_r.
  - unfold keeps at 1.
    destruct (get_meta_by_item_id_returns it) as [meta ->]. simpl.
    destruct (category_in meta allowed).
    + rewrite IH. by rewrite <- app_assoc.
    + apply IH.
Qed.

Lemma filter_by_categories_returns (cands : list string) (allowed : option (gset cell)) :
  returns (filter_by_categories art cands allowed).
Proof.
  destruct allowed as [allowed|]; simpl; [| by eexists].
  rewrite filter_loop_spec. by eexists.
Qed.

Lemma filter_by_categories_subseteq (cands out : list string)
    (allowed : option (gset cell)) (x : string) :
  filter_by_categories art cands allowed = Ok out → x ∈ out → x ∈ cands.
Proof.
  destruct allowed as [allowed|]; simpl.
  - rewrite filter_loop_spec. intros [= <-]. simpl.
    rewrite list_elem_of_In, filter_In, <- list_elem_of_In. tauto.
  - by intros [= <-].
Qed.

Lemma show_item_info_returns (items : list string) :
  returns (show_item_info art items).
Proof.
  apply comprehension_total. intros it _.
  destruct (get_meta_by_item_id_returns it) as [meta ->]. by eexists.
Qed.

End HelperFacts.

Lemma filter_sublist (f : string → bool) (l : list string) :
  List.filter f l `sublist_of` l.
Proof.
  induction l as [|x rest IH]; simpl; [constructor|].
  destruct (f x); by constructor.
Qed.

Lemma empty_meta_fields (field : string) :
  field ∈ ["title"; "category_id"; "brand"; "price"] →
  empty_meta !! field = Some (Text "").
Proof.
  intros Hf. repeat (apply elem_of_cons in Hf as [-> | Hf]; [reflexivity|]).
  by apply elem_of_nil in Hf.
Qed.

Section RequestFacts.
Variable art : Artifacts.

Lemma als_recommend_Ok (user_id : string) (k : Z) (cands : list string) :
  als_recommend art user_id k = Ok cands →
  cands = [] ∨ ∃ u_idx recs, model art u_idx k = Ok recs
               ∧ comprehension (inverse_transform (item_le art)) (map fst recs) = Ok cands.
Proof.
  unfold als_recommend. destruct (negb _); [intros [= <-]; by left|].
  destruct (transform (user_le art) user_id) as [u_idx|e]; simpl; [| intros [= <-]; by left].
  destruct (model art u_idx k) as [recs|e] eqn:Hrecs; simpl; [| intros [= <-]; by left].
  destruct (comprehension _ (map fst recs)) as [ids|e] eqn:Hids; simpl;
    [| intros [= <-]; by left].
  intros [= <-]. right. by exists u_idx, recs.
Qed.

Lemma co_view_recommend_len (item_id : string) (k : Z) (cands : list string) :
  0 ≤ k → co_view_recommend art item_id k = Ok cands → len cands ≤ k.
Proof.
  intros Hk. unfold co_view_recommend.
  destruct (transform (item_le art) item_id) as [code|e]; simpl;
    [| intros [= <-]; exact Hk].
  destruct (comprehension _ _) as [ids|e] eqn:Hids; simpl; [| intros [= <-]; exact Hk].
  intros [= <-]. apply comprehension_length in Hids.
  unfold len. rewrite Hids. by apply slice_to_len.
Qed.

Lemma popular_candidates_Ok (N : Z) (cands : list string) :
  0 ≤ N → popular_candidates art N = Ok cands →
  comprehension (inverse_transform (item_le art))
    (take (Z.to_nat (N * 6)) (popular_items art)) = Ok cands.
Proof.
  intros HN. unfold popular_candidates.
  destruct (popular_items art) as [|c rest]; [intros [= <-]; by rewrite take_nil|].
  rewrite slice_to_take by lia. done.
Qed.

Lemma determine_allowed_Some (item_id_input : string) (S : gset cell) :
  determine_allowed art item_id_input = Ok (Some S) →
  ∃ meta curr_cat,
    get_meta_by_item_id art item_id_input = Ok meta
    ∧ meta !! "category_id" = Some curr_cat
    ∧ truthy_cell curr_cat = true
    ∧ S = {[curr_cat]} ∪ set_map Text (default ∅ (related_categories art curr_cat)).
Proof.
  unfold determine_allowed. destruct (truthy item_id_input); [| done].
  destruct (get_meta_by_item_id art item_id_input) as [meta|e]; simpl; [| done].
  destruct (meta !! "category_id") as [curr_cat|] eqn:Hcat; [| done].
  destruct (truthy_cell curr_cat) eqn:Htruthy; [| done].
  intros Hs. exists meta, curr_cat. split_and!; [done..|].
  destruct (related_categories art curr_cat) as [related|]; simpl;
    injection Hs as <-; [done | by rewrite set_map_empty, union_empty_r_L].
Qed.




(** What a successful request computed, step by step. *)
Lemma get_recommendations_Ok (user_id_input item_id_input : string) (N : Z)
    (r : Recommendation) :
  get_recommendations art user_id_input item_id_input N = Ok r →
  determine_allowed art item_id_input = Ok (allowed_categories r)
  ∧ als_recommend art user_id_input (N * 4) = Ok (als_cands r)
  ∧ co_view_recommend art item_id_input (N * 4) = Ok (co_cands r)
  ∧ popular_candidates art N = Ok (pop_cands r)
  ∧ filter_by_categories art (als_cands r) (allowed_categories r) = Ok (als_f r)
  ∧ filter_by_categories art (co_cands r) (allowed_categories r) = Ok (co_f r)
  ∧ filter_by_categories art (pop_cands r) (allowed_categories r) = Ok (pop_f r)
  ∧ final r = merge (als_f r) (co_f r) (pop_f r) (pop_cands r) N
  ∧ reasons r = attribution (als_f r) (co_f r) (final r).
Proof.
  unfold get_recommendations.
  destruct (determine_allowed art item_id_input) as [allowed|e]; simpl; [| done].
  destruct (als_recommend art user_id_input (N * 4)) as [alsc|e]; simpl; [| done].
  destruct (co_view_recommend art item_id_input (N * 4)) as [coc|e]; simpl; [| done].
  destruct (popular_candidates art N) as [popc|e]; simpl; [| done].
  destruct (filter_by_categories art alsc allowed) as [alsf|e] eqn:Ha; simpl; [| done].
  destruct (filter_by_categories art coc allowed) as [cof|e] eqn:Hc; simpl; [| done].
  destruct (filter_by_categories art popc allowed) as [popf|e] eqn:Hp; simpl; [| done].
  destruct (show_item_info art _) as [df|e]; simpl; [| done].
  intros [= <-]. simpl. by split_and!.
Qed.

(** Once the popularity candidates are there, the request goes through. *)
Lemma get_recommendations_returns (user_id_input item_id_input : string) (N : Z) :
  returns (popular_candidates art N) →
  returns (get_recommendations art user_id_input item_id_input N).
Proof.
  intros [popc Hpop]. unfold get_recommendations.
  assert (returns (determine_allowed art item_id_input)) as [allowed ->].
  { unfold determine_allowed. destruct (truthy item_id_input); [| by eexists].
    destruct (get_meta_by_item_id_returns art item_id_input) as [meta ->]. simpl.
    destruct (meta !! "category_id") as [c|]; [| by eexists].
    destruct (truthy_cell c); [| by eexists].
    destruct (related_categories art c); by eexists. }
  simpl.
  destruct (als_recommend_returns art user_id_input (N * 4)) as [alsc ->]. simpl.
  destruct (co_view_recommend_returns art item_id_input (N * 4)) as [coc ->]. simpl.
  rewrite Hpop. simpl.
  destruct (filter_by_categories_returns art alsc allowed) as [alsf ->]. simpl.
  destruct (filter_by_categories_returns art coc allowed) as [cof ->]. simpl.
  destruct (filter_by_categories_returns art popc allowed) as [popf ->]. simpl.
  destruct (show_item_info_returns art (merge alsf cof popf popc N)) as [df ->]. simpl.
  by eexists.
Qed.

End RequestFacts.

(** ** When the result can fall short *)

Lemma inverse_transform_inj (le : LabelEncoder) (c1 c2 : Z) (x : string) :
  NoDup (classes_ le) →
  inverse_transform le c1 = Ok x → inverse_transform le c2 = Ok x → c1 = c2.
Proof.
  intros Hnd. unfold inverse_transform.
  destruct (Z.leb_spec 0 c1), (Z.leb_spec 0 c2); simpl; try done.
  destruct (c1 <? len (classes_ le)); [| done].
  destruct (c2 <? len (classes_ le)); [| done].
  destruct (classes_ le !! Z.to_nat c1) as [x1|] eqn:H1; [| done].
  destruct (classes_ le !! Z.to_nat c2) as [x2|] eqn:H2; [| done].
  intros [= ->] [= ->].
  pose proof (NoDup_lookup _ _ _ _ Hnd H1 H2). lia.
Qed.

Lemma comprehension_elem {A B : Type} (f : A → result B) (l : list A) (ys : list B) (y : B) :
  comprehension f l = Ok ys → y ∈ ys → ∃ a, a ∈ l ∧ f a = Ok y.
Proof.
  revert ys. induction l as [|a rest IH]; intros ys; simpl.
  - intros [= <-] Hy. by apply elem_of_nil in Hy.
  - destruct (f a) as [b|e] eqn:Hfa; simpl; [| done].
    destruct (comprehension f rest) as [ys'|e]; simpl; [| done].
    intros [= <-] Hy. apply elem_of_cons in Hy as [-> | Hy].
    + exists a. split; [left | done].
    + destruct (IH ys' eq_refl Hy) as (a' & Ha' & Hfa'). exists a'. split; [by right | done].
Qed.

Lemma comprehension_NoDup {A B : Type} (f : A → result B) (l : list A) (ys : list B) :
  (∀ a b y, f a = Ok y → f b = Ok y → a = b) →
  NoDup l → comprehension f l = Ok ys → NoDup ys.
Proof.
  intros Hinj. revert ys. induction l as [|a rest IH]; intros ys Hnd; simpl.
  - intros [= <-]. constructor.
  - apply NoDup_cons in Hnd as [Hfresh Hnd].
    destruct (f a) as [b|e] eqn:Hfa; simpl; [| done].
    destruct (comprehension f rest) as [ys'|e] eqn:Hrest; simpl; [| done].
    intros [= <-]. constructor; [| by apply IH].
    intros Hb. destruct (comprehension_elem f rest ys' b Hrest Hb) as (a' & Ha' & Hfa').
    by rewrite (Hinj a a' b Hfa Hfa') in Hfresh.
Qed.

(** With an injective encoder and a popularity list of at least [N]
    pairwise distinct codes, the backfill always meets the quota: a short
    result needs a short popularity list or repeated codes in it. *)
Lemma final_full_when_popular_distinct (art : Artifacts)
    (user_id_input item_id_input : string) (N : Z) (r : Recommendation) :
  1 ≤ N →
  NoDup (classes_ (item_le art)) →
  NoDup (popular_items art) →
  N ≤ len (popular_items art) →
  get_recommendations art user_id_input item_id_input N = Ok r →
  len (final r) = N.
Proof.
  intros HN Hcls Hpop Hlen Hr.
  apply get_recommendations_Ok in Hr as (_ & _ & _ & Hp & _ & _ & _ & Hfin & _).
  apply popular_candidates_Ok in Hp; [| lia].
  assert (NoDup (pop_cands r)) as Hnd.
  { eapply comprehension_NoDup; [| | exact Hp].
    - intros a b y. by apply inverse_transform_inj.
    - eapply sublist_NoDup; [exact Hpop | apply sublist_take]. }
  assert (N ≤ len (pop_cands r)) as Hmany.
  { apply comprehension_length in Hp. unfold len in *. rewrite Hp, length_take. lia. }
  rewrite Hfin, merge_length by done.
  assert (len (pop_cands r)
          ≤ distinct_count (als_f r ++ co_f r ++ pop_f r ++ pop_cands r)); [| lia].
  apply NoDup_incl_len; [done|].
  intros x Hx. rewrite elem_of_remove_dups, !elem_of_app. tauto.
Qed.

Lemma art_demo_honours_count : honours_count (model art_demo).
Proof.
  intros u_idx k recs Hk. simpl. intros [= <-]. by apply slice_to_len.
Qed.

(** ** The claims

    The count hypothesis of the merge theorems cannot be dropped: see
    [merge_zero] above, where a quota of zero still yields one item. *)

(** C1.  For a requested count of at least one (the slider gives 1 to
    20) and any four candidate lists, the merged result has exactly
    min(N, number of distinct identifiers in the four lists) items; and with
    the three filtered groups empty, unfiltered popularity [p1, p2] and
    N = 5 the result is [p1, p2]. *)
Theorem merge_length_min_distinct (N : Z) (als_f co_f pop_f pop_cands : list string) :
  1 ≤ N →
  len (merge als_f co_f pop_f pop_cands N)
  = Z.min N (distinct_count (als_f ++ co_f ++ pop_f ++ pop_cands))
  ∧ merge [] [] [] ["p1"; "p2"] 5 = ["p1"; "p2"].
Proof. intros HN. split; [by apply merge_length | reflexivity]. Qed.

Lemma merge_length_min_distinct_witness :
  1 ≤ 4
  ∧ (len (merge ["p3"; "p7"] ["p7"; "p9"] ["p9"; "p1"] ["p1"; "p2"; "p3"; "p4"; "p5"] 4)
     = Z.min 4 (distinct_count (["p3"; "p7"] ++ ["p7"; "p9"] ++ ["p9"; "p1"]
                                ++ ["p1"; "p2"; "p3"; "p4"; "p5"]))
     ∧ merge [] [] [] ["p1"; "p2"] 5 = ["p1"; "p2"]).
Proof.
  split; [lia|].
  apply (merge_length_min_distinct 4 ["p3"; "p7"] ["p7"; "p9"] ["p9"; "p1"]
           ["p1"; "p2"; "p3"; "p4"; "p5"]).
  lia.
Defined.

(** C2.  For a requested count of at least one and any four candidate
    lists, the merged result, backfill included, has no duplicate
    identifier and at most N items. *)
Theorem merge_no_duplicates_bounded (N : Z) (als_f co_f pop_f pop_cands : list string) :
  1 ≤ N →
  NoDup (merge als_f co_f pop_f pop_cands N)
  ∧ len (merge als_f co_f pop_f pop_cands N) ≤ N.
Proof. intros HN. split; [apply merge_NoDup | by apply merge_len_le]. Qed.

Lemma merge_no_duplicates_bounded_witness :
  1 ≤ 3
  ∧ (NoDup (merge ["p3"; "p7"] ["p7"; "p9"] ["p9"; "p1"] ["p1"; "p2"] 3)
     ∧ len (merge ["p3"; "p7"] ["p7"; "p9"] ["p9"; "p1"] ["p1"; "p2"] 3) ≤ 3).
Proof.
  split; [lia|].
  apply (merge_no_duplicates_bounded 3 ["p3"; "p7"] ["p7"; "p9"] ["p9"; "p1"] ["p1"; "p2"]).
  lia.
Defined.



(** C4.  The personalized and the co-view generator turn every internal
    exception into an empty candidate list, but the inline popularity
    generator does not: with a popularity list that names a code unknown to
    the item encoder, the translation raises and the whole request fails. *)
Theorem popularity_failure_escapes :
  (∀ art user_id N, returns (als_recommend art user_id N))
  ∧ (∀ art item_id N, returns (co_view_recommend art item_id N))
  ∧ popular_candidates art_stale_popular 1 = Raise ValueError
  ∧ get_recommendations art_stale_popular "u1" "p1" 1 = Raise ValueError.
Proof.
  split_and!;
    [apply als_recommend_returns | apply co_view_recommend_returns
    | reflexivity | reflexivity].
Qed.

(** C5.  Without a category restriction the filter returns its candidate
    list unchanged. *)
Theorem filter_by_categories_no_restriction (art : Artifacts) (candidates : list string) :
  filter_by_categories art candidates None = Ok candidates.
Proof. reflexivity. Qed.

(** C6.  With a category restriction the filter returns exactly the
    candidates whose resolved [category_id] is in the allowed set, in their
    input order: the result is the order-preserving selection [List.filter]
    of the input, hence a subsequence of it. *)
Theorem filter_by_categories_stable (art : Artifacts) (candidates : list string)
    (allowed : gset cell) :
  ∃ out,
    filter_by_categories art candidates (Some allowed) = Ok out
    ∧ out = List.filter (keeps art allowed) candidates
    ∧ out `sublist_of` candidates
    ∧ ∀ it, it ∈ out ↔
            it ∈ candidates
            ∧ ∃ meta c, get_meta_by_item_id art it = Ok meta
                        ∧ meta !! "category_id" = Some c ∧ c ∈ allowed.
Proof.
  exists (List.filter (keeps art allowed) candidates).
  split_and!; [apply (filter_loop_spec art allowed candidates []) | done
              | apply filter_sublist |].
  intros it. rewrite list_elem_of_In, filter_In, <- list_elem_of_In.
  unfold keeps, category_in.
  destruct (get_meta_by_item_id_returns art it) as [meta ->].
  destruct (meta !! "category_id") as [c|] eqn:Hc.
  - rewrite bool_decide_eq_true. split.
    + intros [Hin Hal]. split; [done|]. by exists meta, c.
    + intros [Hin (meta' & c' & [= <-] & Hc' & Hal)]. split; [done|]. congruence.
  - split; [by intros [_ ?] |]. intros [_ (meta' & c' & [= <-] & Hc' & _)]. congruence.
Qed.

(** C7.  The metadata resolver never raises, whatever the identifier; a
    truthy entry of the code-indexed table is returned when there is one;
    when the code-indexed lookup misses, the answer is the entry of the
    identifier-indexed table, and when that one is missing too it is the
    record whose four fields are all empty. *)
Theorem get_meta_by_item_id_never_raises (art : Artifacts) (item_id : string) :
  returns (get_meta_by_item_id art item_id)
  ∧ (∀ code meta, transform (item_le art) item_id = Ok code →
                  prod_meta_index art !! str code = Some meta → meta ≠ ∅ →
                  get_meta_by_item_id art item_id = Ok meta)
  ∧ (code_lookup_misses art item_id →
     get_meta_by_item_id art item_id
     = Ok (default empty_meta (prod_meta_by_itemid art !! item_id)))
  ∧ (code_lookup_misses art item_id → prod_meta_by_itemid art !! item_id = None →
     get_meta_by_item_id art item_id = Ok empty_meta)
  ∧ (∀ field, field ∈ ["title"; "category_id"; "brand"; "price"] →
              empty_meta !! field = Some (Text ""))
  ∧ (∀ field value, empty_meta !! field = Some value → value = Text "").
Proof.
  split_and!.
  - apply get_meta_by_item_id_returns.
  - apply get_meta_by_code.
  - apply get_meta_fallback.
  - intros Hmiss Hnone. rewrite get_meta_fallback by done. by rewrite Hnone.
  - apply empty_meta_fields.
  - intros field value. unfold empty_meta.
    rewrite !lookup_insert. repeat case_decide; try congruence.
    by rewrite lookup_empty.
Qed.

Lemma get_meta_by_item_id_never_raises_witness :
  code_lookup_misses art_demo "p3" ∧ prod_meta_by_itemid art_demo !! "p3" = None
  ∧ code_lookup_misses art_demo "p9" ∧ prod_meta_by_itemid art_demo !! "p9" = None
  ∧ get_meta_by_item_id art_demo "p3" = Ok empty_meta
  ∧ get_meta_by_item_id art_demo "p9" = Ok empty_meta.
Proof.
  assert (code_lookup_misses art_demo "p3") as H3.
  { intros code meta. vm_compute. intros [= <-]. discriminate. }
  assert (code_lookup_misses art_demo "p9") as H9.
  { intros code meta. vm_compute. discriminate. }
  split_and!; [exact H3 | reflexivity | exact H9 | reflexivity | |].
  - apply (get_meta_by_item_id_never_raises art_demo "p3"); [exact H3 | reflexivity].
  - apply (get_meta_by_item_id_never_raises art_demo "p9"); [exact H9 | reflexivity].
Defined.

(** C8.  For every item of the final result, the attribution is
    [Personalized] when the item is in the personalized filtered group,
    else [Co_view] when it is in the co-view filtered group, else [Popular];
    the request reports exactly this list; and the scenario of the
    specification gives Personalized, Personalized, Co-view, Popular.  The
    three labels are the texts written by the application, the first one
    being shown as "Personalized (ALS)". *)
Theorem attribution_priority (personalized coview merged : list string)
    (k : nat) (it : string) :
  merged !! k = Some it →
  (∃ reason,
      attribution personalized coview merged !! k = Some reason
      ∧ (it ∈ personalized → reason = Personalized)
      ∧ ((it ∉ personalized) → it ∈ coview → reason = Co_view)
      ∧ ((it ∉ personalized) → (it ∉ coview) → reason = Popular))
  ∧ length (attribution personalized coview merged) = length merged
  ∧ (∀ art user_id_input item_id_input N r,
       get_recommendations art user_id_input item_id_input N = Ok r →
       reasons r = attribution (als_f r) (co_f r) (final r))
  ∧ merge ["p3"; "p7"] ["p7"; "p9"] ["p9"; "p1"] ["p1"; "p2"; "p3"; "p4"; "p5"] 4
    = ["p3"; "p7"; "p9"; "p1"]
  ∧ attribution ["p3"; "p7"] ["p7"; "p9"] ["p3"; "p7"; "p9"; "p1"]
    = [Personalized; Personalized; Co_view; Popular]
  ∧ [Personalized; Co_view; Popular] = ["Personalized (ALS)"; "Co-view"; "Popular"].
Proof.
  intros Hk. split_and!.
  - exists (reason_for personalized coview it). unfold attribution.
    rewrite list_lookup_fmap, Hk. split; [done|].
    unfold reason_for, in_list. split_and!.
    + intros Ha. by rewrite bool_decide_true.
    + intros Ha Hc. rewrite bool_decide_false by done. by rewrite bool_decide_true.
    + intros Ha Hc. by rewrite !bool_decide_false.
  - unfold attribution. by rewrite length_map.
  - intros art u i N r Hr. by apply get_recommendations_Ok in Hr as (_&_&_&_&_&_&_&_&?).
  - reflexivity.
  - reflexivity.
  - reflexivity.
Qed.

Lemma attribution_priority_witness :
  ["p3"; "p7"; "p9"; "p1"] !! 2%nat = Some "p9"
  ∧ ∃ reason,
      attribution ["p3"; "p7"] ["p7"; "p9"] ["p3"; "p7"; "p9"; "p1"] !! 2%nat = Some reason
      ∧ ("p9" ∈ ["p3"; "p7"] → reason = Personalized)
      ∧ (("p9" ∉ ["p3"; "p7"]) → "p9" ∈ ["p7"; "p9"] → reason = Co_view)
      ∧ (("p9" ∉ ["p3"; "p7"]) → ("p9" ∉ ["p7"; "p9"]) → reason = Popular).
Proof.
  split; [reflexivity|].
  apply (attribution_priority ["p3"; "p7"] ["p7"; "p9"] ["p3"; "p7"; "p9"; "p1"] 2 "p9").
  reflexivity.
Defined.

(** C9.  For a requested count N of at least one, a model that honours
    the requested count, and popularity codes that translate, the request
    asks the personalized and the co-view generator for 4N candidates and
    gets at most 4N from each, takes its popularity candidates from the
    first 6N codes of the popularity list, and every item of the final
    result comes from these three pools; and the result can be shorter than
    N while the popularity list still holds, past its first 6N entries, an
    item that is not in the result. *)
Theorem candidate_pools_bounded (art : Artifacts) (user_id_input item_id_input : string)
    (N : Z) :
  1 ≤ N →
  honours_count (model art) →
  returns (popular_candidates art N) →
  (∃ r,
      get_recommendations art user_id_input item_id_input N = Ok r
      ∧ als_recommend art user_id_input (N * 4) = Ok (als_cands r)
      ∧ len (als_cands r) ≤ 4 * N
      ∧ co_view_recommend art item_id_input (N * 4) = Ok (co_cands r)
      ∧ len (co_cands r) ≤ 4 * N
      ∧ comprehension (inverse_transform (item_le art))
          (take (Z.to_nat (6 * N)) (popular_items art)) = Ok (pop_cands r)
      ∧ len (pop_cands r) ≤ 6 * N
      ∧ (∀ x, x ∈ final r → x ∈ als_cands r ∨ x ∈ co_cands r ∨ x ∈ pop_cands r))
  ∧ (∃ r code x,
        get_recommendations art_repeated_popular "" "" 2 = Ok r
        ∧ len (final r) < 2
        ∧ code ∈ drop (Z.to_nat (6 * 2)) (popular_items art_repeated_popular)
        ∧ inverse_transform (item_le art_repeated_popular) code = Ok x
        ∧ x ∉ final r).
Proof.
  intros HN Hmodel Hpop. split.
  - destruct (get_recommendations_returns art user_id_input item_id_input N Hpop)
      as [r Hr].
    exists r. split; [done|].
    apply get_recommendations_Ok in Hr
      as (_ & Hals & Hco & Hp & Hfa & Hfc & Hfp & Hfin & _).
    apply popular_candidates_Ok in Hp; [| lia].
    replace (6 * N) with (N * 6) by lia. replace (4 * N) with (N * 4) by lia.
    split_and!; [done | | done | | done | |].
    + apply als_recommend_Ok in Hals as Hshape.
      destruct Hshape as [-> | (u_idx & recs & Hrecs & Hids)]; [unfold len; simpl; lia|].
      apply comprehension_length in Hids. unfold len. rewrite Hids, length_map.
      apply (Hmodel u_idx (N * 4) recs); [lia | done].
    + apply (co_view_recommend_len art item_id_input); [lia | done].
    + apply comprehension_length in Hp. unfold len. rewrite Hp, length_take. lia.
    + intros x Hx. rewrite Hfin in Hx.
      apply merge_sources in Hx as [Hx | [Hx | [Hx | Hx]]];
        eauto using filter_by_categories_subseteq.
  - eexists _, 1, "p1". split; [vm_compute; reflexivity|]. simpl.
    split_and!; [done | | reflexivity |].
    + apply (bool_decide_unpack _). by vm_compute.
    + apply (bool_decide_unpack _). by vm_compute.
Qed.

Lemma candidate_pools_bounded_witness :
  1 ≤ 2
  ∧ honours_count (model art_demo)
  ∧ returns (popular_candidates art_demo 2)
  ∧ ∃ r,
      get_recommendations art_demo "u1" "p1" 2 = Ok r
      ∧ als_recommend art_demo "u1" (2 * 4) = Ok (als_cands r)
      ∧ len (als_cands r) ≤ 4 * 2
      ∧ co_view_recommend art_demo "p1" (2 * 4) = Ok (co_cands r)
      ∧ len (co_cands r) ≤ 4 * 2
      ∧ comprehension (inverse_transform (item_le art_demo))
          (take (Z.to_nat (6 * 2)) (popular_items art_demo)) = Ok (pop_cands r)
      ∧ len (pop_cands r) ≤ 6 * 2
      ∧ (∀ x, x ∈ final r → x ∈ als_cands r ∨ x ∈ co_cands r ∨ x ∈ pop_cands r).
Proof.
  assert (returns (popular_candidates art_demo 2)) as Hpop.
  { eexists. vm_compute. reflexivity. }
  split_and!; [lia | exact art_demo_honours_count | exact Hpop |].
  apply (candidate_pools_bounded art_demo "u1" "p1" 2);
    [lia | exact art_demo_honours_count | exact Hpop].
Defined.


(** With numeric category identifiers the lookup of the current category
    in the relationship map misses, although the map relates "12" to "13":
    only the current category itself is allowed, and [p2], of category 13,
    is filtered out. *)
Example numeric_category_lookup_misses :
  ∃ r,
    get_recommendations art_numeric_categories "" "p1" 2 = Ok r
    ∧ cat_rel_map art_numeric_categories !! "12" = Some {["13"]}
    ∧ allowed_categories r = Some {[Number (Qc_of_Z 12)]}
    ∧ pop_cands r = ["p2"; "p1"; "p3"]
    ∧ pop_f r = ["p1"; "p3"]
    ∧ final r = ["p1"; "p3"].
Proof.
  eexists. split; [vm_compute; reflexivity|]. simpl.
  split_and!; reflexivity.
Qed.



(** * Further properties

    Properties of the same code beyond the claims above. *)

(** ** The merge in closed form *)

Section Absorb.

Lemma absorb_app (final g1 g2 : list string) :
  absorb final (g1 ++ g2) = absorb (absorb final g1) g2.
Proof. apply foldl_app. Qed.

Lemma append_new_extends (final : list string) (it : string) :
  ∃ ext, append_new final it = final ++ ext.
Proof.
  unfold append_new. destruct (in_list it final); [exists [] | exists [it]]; [|done].
  by rewrite app_nil_r.
Qed.

Lemma absorb_extends (final group : list string) :
  ∃ ext, absorb final group = final ++ ext.
Proof.
  revert final. induction group as [|it rest IH]; intros final; simpl.
  - exists []. by rewrite app_nil_r.
  - destruct (append_new_extends final it) as [e1 He1].
    destruct (IH (append_new final it)) as [e2 He2].
    exists (e1 ++ e2). unfold absorb in *. simpl. by rewrite He2, He1, app_assoc.
Qed.

Lemma absorb_elem (final group : list string) (x : string) :
  x ∈ absorb final group ↔ x ∈ final ∨ x ∈ group.
Proof.
  revert final. induction group as [|it rest IH]; intros final.
  - simpl. rewrite elem_of_nil. tauto.
  - unfold absorb in *. simpl. rewrite IH, elem_of_cons. unfold append_new, in_list.
    case_bool_decide as Hin.
    + split; [tauto|]. intros [? | [-> | ?]]; tauto.
    + rewrite elem_of_app, list_elem_of_singleton. tauto.
Qed.

Lemma absorb_NoDup (final group : list string) :
  NoDup final → NoDup (absorb final group).
Proof.
  revert final. induction group as [|it rest IH]; intros final Hnd; [done|].
  unfold absorb in *. simpl. apply IH. unfold append_new, in_list.
  case_bool_decide as Hin; [done|].
  apply NoDup_app. split_and!; [done | | apply NoDup_singleton].
  intros x Hx Hx'. apply list_elem_of_singleton in Hx'. by subst.
Qed.

(** Absorbing identifiers that are all there already changes nothing. *)
Lemma absorb_present (final group : list string) :
  (∀ x, x ∈ group → x ∈ final) → absorb final group = final.
Proof.
  revert final. induction group as [|it rest IH]; intros final Hsub; [done|].
  assert (append_new final it = final) as Hit.
  { unfold append_new, in_list. rewrite bool_decide_true; [done|]. apply Hsub. left. }
  unfold absorb in *. simpl. rewrite Hit.
  apply IH. intros x Hx. apply Hsub. by right.
Qed.

Lemma distinct_in_order_snoc (l : list string) (x : string) :
  distinct_in_order (l ++ [x])
  = if in_list x l then distinct_in_order l else distinct_in_order l ++ [x].
Proof.
  unfold distinct_in_order. rewrite absorb_app. simpl. unfold absorb at 1. simpl.
  unfold append_new, in_list.
  assert (x ∈ absorb [] l ↔ x ∈ l) as Hiff.
  { rewrite absorb_elem, elem_of_nil. tauto. }
  repeat case_bool_decide; tauto.
Qed.

Lemma distinct_in_order_remove_dups (l : list string) :
  distinct_in_order l = reverse (remove_dups (reverse l)).
Proof.
  induction l as [|x l IH] using rev_ind; [done|].
  rewrite distinct_in_order_snoc, reverse_snoc. simpl. unfold in_list.
  destruct (decide_rel elem_of x (reverse l)) as [Hr | Hr]; rewrite elem_of_reverse in Hr.
  - by rewrite bool_decide_true.
  - rewrite bool_decide_false by done. by rewrite reverse_cons, IH.
Qed.

Lemma distinct_in_order_len (l : list string) :
  len (distinct_in_order l) = distinct_count l.
Proof.
  unfold distinct_count. apply Z.le_antisymm; apply NoDup_incl_len.
  - apply absorb_NoDup. constructor.
  - intros x. unfold distinct_in_order. rewrite absorb_elem, elem_of_remove_dups, elem_of_nil.
    tauto.
  - apply NoDup_remove_dups.
  - intros x. unfold distinct_in_order. rewrite absorb_elem, elem_of_remove_dups, elem_of_nil.
    tauto.
Qed.

Variable N : Z.

Lemma take_short (l : list string) : len l < N → take (Z.to_nat N) l = l.
Proof. intros Hl. apply take_ge. unfold len in Hl. lia. Qed.

Lemma len_append_new (final : list string) (it : string) :
  len final ≤ len (append_new final it) ≤ len final + 1.
Proof.
  unfold append_new. destruct (in_list it final); [lia|].
  rewrite len_app_one. lia.
Qed.

Lemma merge_group_absorb (group final : list string) :
  len final < N → merge_group N group final = take (Z.to_nat N) (absorb final group).
Proof.
  revert final. induction group as [|it rest IH]; intros final Hlt.
  - simpl. by rewrite take_short.
  - cbn [merge_group]. fold (append_new final it).
    pose proof (len_append_new final it) as Hlen.
    unfold absorb. simpl. fold (absorb (append_new final it) rest).
    destruct (Z.leb_spec N (len (append_new final it))) as [Hge | Hlt'].
    + destruct (absorb_extends (append_new final it) rest) as [ext ->].
      rewrite take_app_length'; [done|]. unfold len in *. lia.
    + by apply IH.
Qed.

Lemma take_full (l : list string) :
  N ≤ len (take (Z.to_nat N) l) → 0 ≤ N → (Z.to_nat N ≤ length l)%nat.
Proof. unfold len. rewrite length_take. lia. Qed.

Lemma merge_groups_absorb (groups : list (list string)) (final : list string) :
  0 ≤ N → len final < N →
  merge_groups N groups final = take (Z.to_nat N) (absorb final (concat groups)).
Proof.
  intros HN. revert final. induction groups as [|group rest IH]; intros final Hlt.
  - simpl. by rewrite take_short.
  - cbn [merge_groups concat]. rewrite absorb_app.
    rewrite (merge_group_absorb group final Hlt).
    destruct (Z.leb_spec N (len (take (Z.to_nat N) (absorb final group)))) as [Hge | Hlt'].
    + destruct (absorb_extends (absorb final group) (concat rest)) as [ext ->].
      rewrite take_app_le; [done|]. by apply take_full.
    + assert (take (Z.to_nat N) (absorb final group) = absorb final group) as Heq.
      { apply take_ge. unfold len in Hlt'. rewrite length_take in Hlt'. lia. }
      rewrite Heq in *. by apply IH.
Qed.

Lemma merge_closed_form (als_f co_f pop_f pop_cands : list string) :
  1 ≤ N →
  merge als_f co_f pop_f pop_cands N
  = take (Z.to_nat N) (distinct_in_order (als_f ++ co_f ++ pop_f ++ pop_cands)).
Proof.
  intros HN. unfold merge, distinct_in_order.
  rewrite merge_groups_absorb by (unfold len; simpl; lia).
  simpl. rewrite app_nil_r.
  replace (als_f ++ co_f ++ pop_f ++ pop_cands)
    with ((als_f ++ co_f ++ pop_f) ++ pop_cands) by (by rewrite <- !app_assoc).
  rewrite (absorb_app [] _ pop_cands).
  set (P := absorb [] (als_f ++ co_f ++ pop_f)).
  destruct (Z.ltb_spec (len (take (Z.to_nat N) P)) N) as [Hlt | Hge].
  - assert (take (Z.to_nat N) P = P) as Heq.
    { apply take_ge. unfold len in Hlt. rewrite length_take in Hlt. lia. }
    rewrite Heq in *. by apply merge_group_absorb.
  - destruct (absorb_extends P pop_cands) as [ext ->].
    rewrite take_app_le; [done|]. apply take_full; lia.
Qed.

End Absorb.

(** ** Encoders *)

Lemma index_of_Some (x : string) (l : list string) (i : nat) :
  index_of x l = Some i → l !! i = Some x.
Proof.
  revert i. induction l as [|y rest IH]; intros i; simpl; [done|].
  case_decide as Hxy.
  - intros [= <-]. by subst.
  - destruct (index_of x rest) as [j|]; simpl; [| done].
    intros [= <-]. simpl. by apply IH.
Qed.

Lemma index_of_None (x : string) (l : list string) :
  index_of x l = None ↔ x ∉ l.
Proof.
  induction l as [|y rest IH]; simpl.
  - split; [intros _; apply not_elem_of_nil | done].
  - rewrite not_elem_of_cons. case_decide as Hxy.
    + split; [done | intros [? _]; done].
    + destruct (index_of x rest) as [j|]; simpl.
      * split; [done|]. intros [_ Hn]. by apply IH in Hn.
      * split; [| done]. intros _. split; [done | by apply IH].
Qed.

Lemma index_of_NoDup (x : string) (l : list string) (i : nat) :
  NoDup l → l !! i = Some x → index_of x l = Some i.
Proof.
  intros Hnd Hi. destruct (index_of x l) as [j|] eqn:Hj.
  - apply index_of_Some in Hj. f_equal. by eapply NoDup_lookup.
  - apply index_of_None in Hj. destruct Hj. by eapply list_elem_of_lookup_2.
Qed.

Lemma transform_known (le : LabelEncoder) (x : string) :
  x ∈ classes_ le ↔ returns (transform le x).
Proof.
  unfold transform. destruct (index_of x (classes_ le)) as [i|] eqn:Hi.
  - split; [intros _; by eexists|]. intros _. apply index_of_Some in Hi.
    by eapply list_elem_of_lookup_2.
  - apply index_of_None in Hi. split; [done | by intros [? ?]].
Qed.

Lemma inverse_transform_Ok (le : LabelEncoder) (c : Z) (x : string) :
  inverse_transform le c = Ok x ↔ known_code le c ∧ classes_ le !! Z.to_nat c = Some x.
Proof.
  unfold inverse_transform, known_code.
  destruct (Z.leb_spec 0 c), (Z.ltb_spec c (len (classes_ le))); simpl;
    try (split; [done | intros [? _]; lia]).
  destruct (classes_ le !! Z.to_nat c) as [y|]; split.
  - intros [= ->]. split; [lia | done].
  - by intros [_ [= ->]].
  - done.
  - by intros [_ ?].
Qed.

Lemma inverse_transform_known (le : LabelEncoder) (c : Z) :
  returns (inverse_transform le c) ↔ known_code le c.
Proof.
  split.
  - intros [x Hx]. by apply inverse_transform_Ok in Hx as [? _].
  - intros Hc. destruct (lookup_lt_is_Some_2 (classes_ le) (Z.to_nat c)) as [x Hx].
    { unfold known_code, len in Hc. lia. }
    exists x. by apply inverse_transform_Ok.
Qed.

Lemma inverse_transform_elem (le : LabelEncoder) (c : Z) (x : string) :
  inverse_transform le c = Ok x → x ∈ classes_ le.
Proof.
  intros Hx. apply inverse_transform_Ok in Hx as [_ Hx]. by eapply list_elem_of_lookup_2.
Qed.

Lemma transform_inverse (le : LabelEncoder) (x : string) (c : Z) :
  transform le x = Ok c → inverse_transform le c = Ok x.
Proof.
  unfold transform. destruct (index_of x (classes_ le)) as [i|] eqn:Hi; [| done].
  intros [= <-]. apply index_of_Some in Hi. apply inverse_transform_Ok.
  rewrite Nat2Z.id. split; [| done].
  apply lookup_lt_Some in Hi. unfold known_code, len. lia.
Qed.

Lemma inverse_transform_round_trip (le : LabelEncoder) (c : Z) (x : string) :
  NoDup (classes_ le) → inverse_transform le c = Ok x → transform le x = Ok c.
Proof.
  intros Hnd Hx. apply inverse_transform_Ok in Hx as [Hc Hx].
  unfold transform. rewrite (index_of_NoDup x _ _ Hnd Hx).
  f_equal. unfold known_code in Hc. lia.
Qed.

(** ** Comprehensions *)

Lemma comprehension_returns {A B : Type} (f : A → result B) (l : list A) :
  returns (comprehension f l) ↔ Forall (λ x, returns (f x)) l.
Proof.
  induction l as [|x rest IH]; simpl.
  - split; [constructor | by eexists].
  - rewrite Forall_cons, <- IH. destruct (f x) as [y|e]; simpl.
    + destruct (comprehension f rest) as [ys|e']; simpl.
      * split; [intros _; split; by eexists | intros _; by eexists].
      * split; [by intros [? ?] | by intros [_ [? ?]]].
    + split; [by intros [? ?] | by intros [[? ?] _]].
Qed.

Lemma comprehension_lookup {A B : Type} (f : A → result B) (l : list A) (ys : list B)
    (i : nat) (x : A) :
  comprehension f l = Ok ys → l !! i = Some x → ∃ y, ys !! i = Some y ∧ f x = Ok y.
Proof.
  revert ys i. induction l as [|a rest IH]; intros ys i; simpl; [done|].
  destruct (f a) as [b|e] eqn:Hfa; simpl; [| done].
  destruct (comprehension f rest) as [ys'|e]; simpl; [| done].
  intros [= <-]. destruct i as [|i]; simpl.
  - intros [= <-]. by exists b.
  - by apply IH.
Qed.

Lemma comprehension_Ok_Forall {A B : Type} (f : A → result B) (P : B → Prop)
    (l : list A) (ys : list B) :
  (∀ x y, f x = Ok y → P y) → comprehension f l = Ok ys → Forall P ys.
Proof.
  intros Hf Hc. apply Forall_forall. intros y Hy.
  destruct (comprehension_elem f l ys y Hc Hy) as (a & _ & Ha). by eapply Hf.
Qed.

(** ** Further properties of the merge *)

(** X1.  For a count of at least one, the three priority loops and the
    backfill together compute the first N distinct identifiers of the four
    lists laid end to end, personalized first; [distinct_in_order] keeps
    the first occurrence of each identifier. *)
Theorem merge_first_distinct (N : Z) (als_f co_f pop_f pop_cands : list string) :
  1 ≤ N →
  merge als_f co_f pop_f pop_cands N
  = take (Z.to_nat N) (distinct_in_order (als_f ++ co_f ++ pop_f ++ pop_cands))
  ∧ distinct_in_order (als_f ++ co_f ++ pop_f ++ pop_cands)
    = reverse (remove_dups (reverse (als_f ++ co_f ++ pop_f ++ pop_cands))).
Proof.
  intros HN. split; [by apply merge_closed_form | apply distinct_in_order_remove_dups].
Qed.

Lemma merge_first_distinct_witness :
  1 ≤ 3
  ∧ merge ["p3"; "p7"] ["p7"; "p9"] ["p9"; "p1"] ["p1"; "p2"] 3
    = take (Z.to_nat 3)
        (distinct_in_order (["p3"; "p7"] ++ ["p7"; "p9"] ++ ["p9"; "p1"] ++ ["p1"; "p2"]))
  ∧ distinct_in_order (["p3"; "p7"] ++ ["p7"; "p9"] ++ ["p9"; "p1"] ++ ["p1"; "p2"])
    = reverse (remove_dups
                 (reverse (["p3"; "p7"] ++ ["p7"; "p9"] ++ ["p9"; "p1"] ++ ["p1"; "p2"]))).
Proof.
  split; [lia|].
  apply (merge_first_distinct 3 ["p3"; "p7"] ["p7"; "p9"] ["p9"; "p1"] ["p1"; "p2"]). lia.
Defined.

(** X2.  On the same candidate lists a larger count only appends: the
    result for N is the first N items of the result for any M from N up. *)
Theorem merge_grows_with_count (N M : Z) (als_f co_f pop_f pop_cands : list string) :
  1 ≤ N → N ≤ M →
  merge als_f co_f pop_f pop_cands N
  = take (Z.to_nat N) (merge als_f co_f pop_f pop_cands M)
  ∧ merge als_f co_f pop_f pop_cands N `prefix_of` merge als_f co_f pop_f pop_cands M.
Proof.
  intros HN HM.
  assert (merge als_f co_f pop_f pop_cands N
          = take (Z.to_nat N) (merge als_f co_f pop_f pop_cands M)) as Heq.
  { rewrite !merge_closed_form by lia. rewrite take_take. f_equal. lia. }
  split; [done|]. rewrite Heq. apply prefix_take.
Qed.

Lemma merge_grows_with_count_witness :
  1 ≤ 2 ∧ 2 ≤ 4
  ∧ merge ["p3"; "p7"] ["p7"; "p9"] ["p9"; "p1"] ["p1"; "p2"] 2
    = take (Z.to_nat 2) (merge ["p3"; "p7"] ["p7"; "p9"] ["p9"; "p1"] ["p1"; "p2"] 4)
  ∧ merge ["p3"; "p7"] ["p7"; "p9"] ["p9"; "p1"] ["p1"; "p2"] 2
    `prefix_of` merge ["p3"; "p7"] ["p7"; "p9"] ["p9"; "p1"] ["p1"; "p2"] 4.
Proof.
  split; [lia|]. split; [lia|].
  apply (merge_grows_with_count 2 4 ["p3"; "p7"] ["p7"; "p9"] ["p9"; "p1"] ["p1"; "p2"]); lia.
Defined.

(** X3.  When the personalized group alone holds at least N distinct
    identifiers, the result is its first N distinct ones: the other groups
    and the backfill contribute nothing. *)
Theorem merge_personalized_fills (N : Z) (als_f co_f pop_f pop_cands : list string) :
  1 ≤ N → N ≤ distinct_count als_f →
  merge als_f co_f pop_f pop_cands N = take (Z.to_nat N) (distinct_in_order als_f)
  ∧ ∀ x, x ∈ merge als_f co_f pop_f pop_cands N → x ∈ als_f.
Proof.
  intros HN Hmany.
  assert (merge als_f co_f pop_f pop_cands N = take (Z.to_nat N) (distinct_in_order als_f))
    as Heq.
  { rewrite merge_closed_form by done. unfold distinct_in_order.
    rewrite absorb_app.
    destruct (absorb_extends (absorb [] als_f) (co_f ++ pop_f ++ pop_cands)) as [ext ->].
    apply take_app_le. pose proof (distinct_in_order_len als_f) as Hl.
    unfold distinct_in_order, len in Hl. lia. }
  split; [done|]. intros x. rewrite Heq. intros Hx.
  apply (elem_of_take _ _ _) in Hx as (i & Hx & _).
  apply list_elem_of_lookup_2 in Hx. unfold distinct_in_order in Hx.
  apply absorb_elem in Hx as [Hx | Hx]; [by apply elem_of_nil in Hx | done].
Qed.

Lemma merge_personalized_fills_witness :
  1 ≤ 2 ∧ 2 ≤ distinct_count ["p3"; "p7"; "p3"]
  ∧ merge ["p3"; "p7"; "p3"] ["p9"] ["p1"] ["p1"; "p2"] 2
    = take (Z.to_nat 2) (distinct_in_order ["p3"; "p7"; "p3"])
  ∧ ∀ x, x ∈ merge ["p3"; "p7"; "p3"] ["p9"] ["p1"] ["p1"; "p2"] 2
         → x ∈ ["p3"; "p7"; "p3"].
Proof.
  split; [lia|]. split; [by vm_compute|].
  apply (merge_personalized_fills 2 ["p3"; "p7"; "p3"] ["p9"] ["p1"] ["p1"; "p2"]);
    [lia | by vm_compute].
Defined.

(** ** Further properties of the generators *)

Section GeneratorFacts.
Variable art : Artifacts.

Lemma co_view_recommend_Ok (item_id : string) (k : Z) (cands : list string) :
  co_view_recommend art item_id k = Ok cands →
  cands = [] ∨ ∃ code, transform (item_le art) item_id = Ok code
               ∧ comprehension (inverse_transform (item_le art))
                   (slice_to k (default [] (co_view_top art !! str code))) = Ok cands.
Proof.
  unfold co_view_recommend.
  destruct (transform (item_le art) item_id) as [code|e]; simpl; [| intros [= <-]; by left].
  destruct (comprehension _ _) as [ids|e] eqn:Hids; simpl; [| intros [= <-]; by left].
  intros [= <-]. right. by exists code.
Qed.

Lemma popular_candidates_shape (N : Z) (cands : list string) :
  popular_candidates art N = Ok cands →
  ∃ codes, comprehension (inverse_transform (item_le art)) codes = Ok cands.
Proof.
  unfold popular_candidates. destruct (popular_items art) as [|c rest].
  - intros [= <-]. by exists [].
  - intros Hc. by eexists.
Qed.

Lemma decoded_known (codes : list Z) (ids : list string) (x : string) :
  comprehension (inverse_transform (item_le art)) codes = Ok ids →
  x ∈ ids → x ∈ classes_ (item_le art).
Proof.
  intros Hc Hx. destruct (comprehension_elem _ _ _ _ Hc Hx) as (c & _ & Hcx).
  by eapply inverse_transform_elem.
Qed.

Lemma popular_candidates_returns (N : Z) :
  0 ≤ N →
  returns (popular_candidates art N)
  ↔ Forall (known_code (item_le art)) (take (Z.to_nat (N * 6)) (popular_items art)).
Proof.
  intros HN. unfold popular_candidates.
  destruct (popular_items art) as [|c rest] eqn:Hpop.
  - rewrite take_nil. split; [constructor | by eexists].
  - rewrite slice_to_take by lia. rewrite comprehension_returns.
    apply Forall_iff. intros x. apply inverse_transform_known.
Qed.

End GeneratorFacts.

(** X4.  The personalized generator is all or nothing: an unknown user, an
    exception of the model, or one row whose code the item encoder does
    not know each give the empty list; otherwise the result translates
    the rows of the model one for one, in their order. *)
Theorem als_recommend_all_or_nothing (art : Artifacts) (user_id : string) (N : Z) :
  (user_id ∉ classes_ (user_le art) → als_recommend art user_id N = Ok [])
  ∧ (∀ u_idx e, transform (user_le art) user_id = Ok u_idx →
                model art u_idx N = Raise e → als_recommend art user_id N = Ok [])
  ∧ (∀ u_idx recs, transform (user_le art) user_id = Ok u_idx →
                   model art u_idx N = Ok recs →
                   ¬ Forall (known_code (item_le art)) (map fst recs) →
                   als_recommend art user_id N = Ok [])
  ∧ (∀ u_idx recs, transform (user_le art) user_id = Ok u_idx →
                   model art u_idx N = Ok recs →
                   Forall (known_code (item_le art)) (map fst recs) →
                   ∃ ids, als_recommend art user_id N = Ok ids
                          ∧ length ids = length recs
                          ∧ ∀ i row, recs !! i = Some row →
                                     ids !! i = classes_ (item_le art) !! Z.to_nat (fst row)).
Proof.
  unfold als_recommend, in_list. split_and!.
  - intros Hu. by rewrite bool_decide_false.
  - intros u_idx e Ht Hm. destruct (negb _); [done|]. by rewrite Ht; simpl; rewrite Hm.
  - intros u_idx recs Ht Hm Hbad. destruct (negb _); [done|].
    rewrite Ht; simpl; rewrite Hm; simpl.
    destruct (comprehension _ (map fst recs)) as [ids|e] eqn:Hc; [| done].
    destruct Hbad. rewrite <- (Forall_iff _ _ _ (inverse_transform_known (item_le art))).
    apply comprehension_returns. by exists ids.
  - intros u_idx recs Ht Hm Hgood.
    assert (user_id ∈ classes_ (user_le art)) as Hu.
    { apply transform_known. by exists u_idx. }
    rewrite bool_decide_true by done. simpl. rewrite Ht; simpl; rewrite Hm; simpl.
    destruct (comprehension _ (map fst recs)) as [ids|e] eqn:Hc.
    + exists ids. split; [done|]. split.
      * apply comprehension_length in Hc. by rewrite Hc, length_map.
      * intros i row Hi.
        destruct (comprehension_lookup _ _ _ i (fst row) Hc) as (y & Hy & Hdec).
        { by rewrite list_lookup_fmap, Hi. }
        apply inverse_transform_Ok in Hdec as [_ Hdec]. by rewrite Hy, Hdec.
    + assert (returns (comprehension (inverse_transform (item_le art)) (map fst recs)))
        as [ids Hids]; [| congruence].
      apply comprehension_returns.
      by rewrite (Forall_iff _ _ _ (inverse_transform_known (item_le art))).
Qed.

(** X5.  The co-view generator returns only identifiers of the item
    encoder, at most N of them for a count that is not negative, and
    nothing at all for a current item the encoder does not know or whose
    code has no entry in the co-view table. *)
Theorem co_view_recommend_bounded (art : Artifacts) (item_id : string) (N : Z) :
  ∃ ids,
    co_view_recommend art item_id N = Ok ids
    ∧ (∀ x, x ∈ ids → x ∈ classes_ (item_le art))
    ∧ (0 ≤ N → len ids ≤ N)
    ∧ (item_id ∉ classes_ (item_le art) → ids = [])
    ∧ (∀ code, transform (item_le art) item_id = Ok code →
               co_view_top art !! str code = None → ids = []).
Proof.
  destruct (co_view_recommend_returns art item_id N) as [ids Hids].
  exists ids. split; [done|]. split_and!.
  - intros x Hx. apply co_view_recommend_Ok in Hids as [-> | (code & _ & Hc)].
    + by apply elem_of_nil in Hx.
    + by eapply decoded_known.
  - intros HN. by eapply co_view_recommend_len.
  - intros Hunknown. apply co_view_recommend_Ok in Hids as [-> | (code & Ht & _)]; [done|].
    destruct Hunknown. apply transform_known. by exists code.
  - intros code Ht Hnone. revert Hids. unfold co_view_recommend.
    rewrite Ht; simpl; rewrite Hnone; simpl.
    unfold slice_to. destruct (N <? 0); rewrite take_nil; simpl; by intros [= <-].
Qed.

(** X6.  A request for a count of at least one goes through exactly when
    every one of the first 6N codes of the popularity list is a code of
    the item encoder; in particular it always does when the popularity
    list is empty. *)
Theorem request_returns_iff (art : Artifacts) (user_id_input item_id_input : string)
    (N : Z) :
  1 ≤ N →
  (returns (get_recommendations art user_id_input item_id_input N)
   ↔ Forall (known_code (item_le art)) (take (Z.to_nat (6 * N)) (popular_items art)))
  ∧ (popular_items art = [] →
     returns (get_recommendations art user_id_input item_id_input N)).
Proof.
  intros HN.
  assert (returns (get_recommendations art user_id_input item_id_input N)
          ↔ returns (popular_candidates art N)) as Hiff.
  { split; [| apply get_recommendations_returns].
    intros [r Hr]. apply get_recommendations_Ok in Hr as (_ & _ & _ & Hp & _).
    by eexists. }
  replace (6 * N) with (N * 6) by lia.
  rewrite Hiff, popular_candidates_returns by lia. split; [done|].
  intros ->. rewrite take_nil. constructor.
Qed.

Lemma request_returns_iff_witness :
  1 ≤ 2
  ∧ (returns (get_recommendations art_demo "u1" "p1" 2)
     ↔ Forall (known_code (item_le art_demo))
         (take (Z.to_nat (6 * 2)) (popular_items art_demo)))
  ∧ (popular_items art_demo = [] → returns (get_recommendations art_demo "u1" "p1" 2)).
Proof.
  split; [lia|]. apply (request_returns_iff art_demo "u1" "p1" 2). lia.
Defined.

(** X7.  Every identifier of the final result is one of the item
    encoder's: the request never recommends an identifier outside the
    catalogue it was fitted on. *)
Theorem recommended_items_known (art : Artifacts) (user_id_input item_id_input : string)
    (N : Z) (r : Recommendation) :
  get_recommendations art user_id_input item_id_input N = Ok r →
  ∀ x, x ∈ final r → x ∈ classes_ (item_le art).
Proof.
  intros Hr x Hx.
  apply get_recommendations_Ok in Hr
    as (_ & Hals & Hco & Hp & Hfa & Hfc & Hfp & Hfin & _).
  rewrite Hfin in Hx.
  assert (x ∈ als_cands r ∨ x ∈ co_cands r ∨ x ∈ pop_cands r) as Hpool.
  { apply merge_sources in Hx as [Hx | [Hx | [Hx | Hx]]];
      eauto using filter_by_categories_subseteq. }
  destruct Hpool as [Hx' | [Hx' | Hx']].
  - apply als_recommend_Ok in Hals as [Hnil | (u_idx & recs & _ & Hc)].
    + rewrite Hnil in Hx'. by apply elem_of_nil in Hx'.
    + by eapply decoded_known.
  - apply co_view_recommend_Ok in Hco as [Hnil | (code & _ & Hc)].
    + rewrite Hnil in Hx'. by apply elem_of_nil in Hx'.
    + by eapply decoded_known.
  - apply popular_candidates_shape in Hp as [codes Hc]. by eapply decoded_known.
Qed.

Lemma recommended_items_known_witness :
  get_recommendations art_demo "u1" "p1" 2
  = Ok (the_result (get_recommendations art_demo "u1" "p1" 2))
  ∧ ∀ x, x ∈ final (the_result (get_recommendations art_demo "u1" "p1" 2))
         → x ∈ classes_ (item_le art_demo).
Proof.
  split; [by vm_compute|].
  apply (recommended_items_known art_demo "u1" "p1" 2). by vm_compute.
Defined.

(** ** Further properties of the filter *)

Lemma filter_by_categories_Some (art : Artifacts) (cands : list string) (S : gset cell) :
  filter_by_categories art cands (Some S) = Ok (List.filter (keeps art S) cands).
Proof. apply (filter_loop_spec art S cands []). Qed.

Lemma list_filter_idem (f : string → bool) (l : list string) :
  List.filter f (List.filter f l) = List.filter f l.
Proof.
  induction l as [|x rest IH]; simpl; [done|].
  destruct (f x) eqn:Hx; simpl; [| done]. by rewrite Hx, IH.
Qed.

Lemma list_filter_mono (f g : string → bool) (l : list string) :
  (∀ x, f x = true → g x = true) → List.filter f l `sublist_of` List.filter g l.
Proof.
  intros Hfg. induction l as [|x rest IH]; simpl; [constructor|].
  destruct (f x) eqn:Hx.
  - rewrite (Hfg x Hx). by constructor.
  - destruct (g x); [by constructor | done].
Qed.

(** X8.  Filtering is idempotent, distributes over concatenation of
    candidate lists, and a larger allowed set keeps at least the same
    candidates in the same order. *)
Theorem filter_by_categories_algebra (art : Artifacts) (l1 l2 : list string)
    (A B : gset cell) :
  A ⊆ B →
  ∃ out1 out2 outB,
    filter_by_categories art l1 (Some A) = Ok out1
    ∧ filter_by_categories art l2 (Some A) = Ok out2
    ∧ filter_by_categories art l1 (Some B) = Ok outB
    ∧ filter_by_categories art out1 (Some A) = Ok out1
    ∧ filter_by_categories art (l1 ++ l2) (Some A) = Ok (out1 ++ out2)
    ∧ out1 `sublist_of` outB.
Proof.
  intros HAB. eexists _, _, _.
  split_and!; [apply filter_by_categories_Some .. | | |].
  - rewrite filter_by_categories_Some. by rewrite list_filter_idem.
  - rewrite filter_by_categories_Some. by rewrite List.filter_app.
  - apply list_filter_mono. intros x. unfold keeps, category_in.
    destruct (get_meta_by_item_id art x) as [meta|e]; [| done].
    destruct (meta !! "category_id") as [c|]; [| done].
    rewrite !bool_decide_eq_true. set_solver.
Qed.

Lemma filter_by_categories_algebra_witness :
  ({[Text "c1"]} : gset cell) ⊆ {[Text "c1"]} ∪ {[Text "c2"]}
  ∧ ∃ out1 out2 outB,
      filter_by_categories art_demo ["p1"; "p3"] (Some {[Text "c1"]}) = Ok out1
      ∧ filter_by_categories art_demo ["p2"] (Some {[Text "c1"]}) = Ok out2
      ∧ filter_by_categories art_demo ["p1"; "p3"] (Some ({[Text "c1"]} ∪ {[Text "c2"]})) = Ok outB
      ∧ filter_by_categories art_demo out1 (Some {[Text "c1"]}) = Ok out1
      ∧ filter_by_categories art_demo (["p1"; "p3"] ++ ["p2"]) (Some {[Text "c1"]})
        = Ok (out1 ++ out2)
      ∧ out1 `sublist_of` outB.
Proof.
  assert (({[Text "c1"]} : gset cell) ⊆ {[Text "c1"]} ∪ {[Text "c2"]}) as Hsub.
  { apply union_subseteq_l. }
  split; [exact Hsub|].
  apply (filter_by_categories_algebra art_demo ["p1"; "p3"] ["p2"]
           {[Text "c1"]} ({[Text "c1"]} ∪ {[Text "c2"]}) Hsub).
Defined.

(** X9.  Under the restriction derived from a current item, every
    candidate whose resolved category is the current item's own category
    passes the filter; so does the current item itself when it is among
    the candidates: nothing takes it out of its own recommendations. *)
Theorem same_category_survives (art : Artifacts) (item_id_input : string)
    (S : gset cell) (cands : list string) :
  determine_allowed art item_id_input = Ok (Some S) →
  ∃ out curr_meta curr_cat,
    filter_by_categories art cands (Some S) = Ok out
    ∧ get_meta_by_item_id art item_id_input = Ok curr_meta
    ∧ curr_meta !! "category_id" = Some curr_cat
    ∧ curr_cat ∈ S
    ∧ (∀ x meta, x ∈ cands → get_meta_by_item_id art x = Ok meta →
                 meta !! "category_id" = Some curr_cat → x ∈ out)
    ∧ (item_id_input ∈ cands → item_id_input ∈ out).
Proof.
  intros Hallowed.
  destruct (determine_allowed_Some art item_id_input S Hallowed)
    as (curr_meta & curr_cat & Hmeta & Hcat & _ & HS).
  assert (curr_cat ∈ S) as Hin.
  { rewrite HS. apply elem_of_union_l. by apply elem_of_singleton. }
  assert (∀ x meta, x ∈ cands → get_meta_by_item_id art x = Ok meta →
                    meta !! "category_id" = Some curr_cat →
                    x ∈ List.filter (keeps art S) cands) as Hkeep.
  { intros x meta Hx Hm Hc. rewrite list_elem_of_In, filter_In, <- list_elem_of_In.
    split; [done|]. unfold keeps, category_in. rewrite Hm, Hc. by apply bool_decide_eq_true. }
  exists (List.filter (keeps art S) cands), curr_meta, curr_cat.
  split_and!; [apply filter_by_categories_Some | done | done | done | exact Hkeep |].
  intros Hself. by eapply Hkeep.
Qed.

Lemma same_category_survives_witness :
  determine_allowed art_demo "p1" = Ok (Some ({[Text "c1"]} ∪ {[Text "c2"]}))
  ∧ ∃ out curr_meta curr_cat,
      filter_by_categories art_demo ["p3"; "p1"; "p2"] (Some ({[Text "c1"]} ∪ {[Text "c2"]})) = Ok out
      ∧ get_meta_by_item_id art_demo "p1" = Ok curr_meta
      ∧ curr_meta !! "category_id" = Some curr_cat
      ∧ curr_cat ∈ ({[Text "c1"]} ∪ {[Text "c2"]} : gset cell)
      ∧ (∀ x meta, x ∈ ["p3"; "p1"; "p2"] → get_meta_by_item_id art_demo x = Ok meta →
                   meta !! "category_id" = Some curr_cat → x ∈ out)
      ∧ ("p1" ∈ ["p3"; "p1"; "p2"] → "p1" ∈ out).
Proof.
  split; [reflexivity|].
  apply (same_category_survives art_demo "p1" ({[Text "c1"]} ∪ {[Text "c2"]}) ["p3"; "p1"; "p2"]).
  reflexivity.
Defined.

(** X10.  With a restriction active and a count of at least one, an item
    of the final result that the filter rejects can only have come from
    the backfill: it is an unfiltered popularity candidate, it is in none
    of the three filtered groups, it is labelled [Popular], and the three
    filtered groups together hold fewer than N distinct identifiers. *)
Theorem off_category_only_by_backfill (art : Artifacts)
    (user_id_input item_id_input : string) (N : Z) (r : Recommendation)
    (S : gset cell) (x : string) :
  1 ≤ N →
  get_recommendations art user_id_input item_id_input N = Ok r →
  allowed_categories r = Some S →
  x ∈ final r →
  keeps art S x = false →
  x ∈ pop_cands r
  ∧ (x ∉ als_f r) ∧ (x ∉ co_f r) ∧ (x ∉ pop_f r)
  ∧ reason_for (als_f r) (co_f r) x = Popular
  ∧ distinct_count (als_f r ++ co_f r ++ pop_f r) < N.
Proof.
  intros HN Hr HS Hx Hrej.
  apply get_recommendations_Ok in Hr as (_ & _ & _ & _ & Hfa & Hfc & Hfp & Hfin & _).
  rewrite HS, filter_by_categories_Some in Hfa, Hfc, Hfp.
  assert (∀ l, x ∉ List.filter (keeps art S) l) as Hout.
  { intros l. rewrite list_elem_of_In, filter_In. intros [_ Hk]. congruence. }
  injection Hfa as Hfa. injection Hfc as Hfc. injection Hfp as Hfp.
  assert (x ∉ als_f r) as Ha by (rewrite <- Hfa; apply Hout).
  assert (x ∉ co_f r) as Hc by (rewrite <- Hfc; apply Hout).
  assert (x ∉ pop_f r) as Hp by (rewrite <- Hfp; apply Hout).
  rewrite Hfin in Hx.
  split_and!; [| done | done | done | |].
  - apply merge_sources in Hx. tauto.
  - unfold reason_for, in_list. by rewrite !bool_decide_false.
  - rewrite <- distinct_in_order_len.
    destruct (Z.lt_ge_cases (len (distinct_in_order (als_f r ++ co_f r ++ pop_f r))) N)
      as [Hlt | Hge]; [done | exfalso].
    rewrite merge_closed_form in Hx by done.
    replace (als_f r ++ co_f r ++ pop_f r ++ pop_cands r)
      with ((als_f r ++ co_f r ++ pop_f r) ++ pop_cands r) in Hx
      by (by rewrite <- !app_assoc).
    unfold distinct_in_order in Hx, Hge. rewrite absorb_app in Hx.
    destruct (absorb_extends (absorb [] (als_f r ++ co_f r ++ pop_f r)) (pop_cands r))
      as [ext Hext].
    rewrite Hext, take_app_le in Hx by (unfold len in Hge; lia).
    apply (elem_of_take _ _ _) in Hx as (i & Hx & _).
    apply list_elem_of_lookup_2, absorb_elem in Hx as [Hx | Hx];
      [by apply elem_of_nil in Hx|].
    rewrite !elem_of_app in Hx. tauto.
Qed.

Lemma off_category_only_by_backfill_witness :
  1 ≤ 3
  ∧ get_recommendations art_demo "u1" "p1" 3
    = Ok (the_result (get_recommendations art_demo "u1" "p1" 3))
  ∧ allowed_categories (the_result (get_recommendations art_demo "u1" "p1" 3))
    = Some ({[Text "c1"]} ∪ {[Text "c2"]})
  ∧ "p3" ∈ final (the_result (get_recommendations art_demo "u1" "p1" 3))
  ∧ keeps art_demo ({[Text "c1"]} ∪ {[Text "c2"]}) "p3" = false
  ∧ "p3" ∈ pop_cands (the_result (get_recommendations art_demo "u1" "p1" 3))
  ∧ ("p3" ∉ als_f (the_result (get_recommendations art_demo "u1" "p1" 3)))
  ∧ ("p3" ∉ co_f (the_result (get_recommendations art_demo "u1" "p1" 3)))
  ∧ ("p3" ∉ pop_f (the_result (get_recommendations art_demo "u1" "p1" 3)))
  ∧ reason_for (als_f (the_result (get_recommendations art_demo "u1" "p1" 3)))
      (co_f (the_result (get_recommendations art_demo "u1" "p1" 3))) "p3" = Popular
  ∧ distinct_count
      (als_f (the_result (get_recommendations art_demo "u1" "p1" 3))
       ++ co_f (the_result (get_recommendations art_demo "u1" "p1" 3))
       ++ pop_f (the_result (get_recommendations art_demo "u1" "p1" 3))) < 3.
Proof.
  assert ("p3" ∈ final (the_result (get_recommendations art_demo "u1" "p1" 3))) as Hin.
  { apply (bool_decide_unpack _). by vm_compute. }
  split; [lia|]. split; [by vm_compute|]. split; [reflexivity|].
  split; [exact Hin|]. split; [reflexivity|].
  apply (off_category_only_by_backfill art_demo "u1" "p1" 3
           (the_result (get_recommendations art_demo "u1" "p1" 3))
           ({[Text "c1"]} ∪ {[Text "c2"]}) "p3");
    [lia | by vm_compute | reflexivity | exact Hin | reflexivity].
Defined.

Lemma unrestricted_request_facts (art : Artifacts) (user_id_input item_id_input : string)
    (N : Z) (r : Recommendation) :
  1 ≤ N →
  get_recommendations art user_id_input item_id_input N = Ok r →
  allowed_categories r = None →
  als_f r = als_cands r ∧ co_f r = co_cands r ∧ pop_f r = pop_cands r
  ∧ final r
    = take (Z.to_nat N) (distinct_in_order (als_cands r ++ co_cands r ++ pop_cands r)).
Proof.
  intros HN Hr Hnone.
  apply get_recommendations_Ok in Hr as (_ & _ & _ & _ & Hfa & Hfc & Hfp & Hfin & _).
  rewrite Hnone in Hfa, Hfc, Hfp. simpl in Hfa, Hfc, Hfp.
  injection Hfa as Hfa. injection Hfc as Hfc. injection Hfp as Hfp.
  split_and!; [done..|].
  rewrite Hfin, merge_closed_form by done. rewrite <- Hfa, <- Hfc, <- Hfp.
  f_equal. unfold distinct_in_order.
  replace (als_cands r ++ co_cands r ++ pop_cands r ++ pop_cands r)
    with ((als_cands r ++ co_cands r ++ pop_cands r) ++ pop_cands r)
    by (by rewrite <- !app_assoc).
  rewrite absorb_app. apply absorb_present.
  intros y Hy. apply absorb_elem. right. rewrite !elem_of_app. tauto.
Qed.

(** X11.  Without a restriction nothing is filtered, the backfill has
    nothing to add, and for a count of at least one the final result is
    the first N distinct identifiers of the personalized, co-view and
    popularity candidates, in that order. *)
Theorem unrestricted_request (art : Artifacts) (user_id_input item_id_input : string)
    (N : Z) (r : Recommendation) :
  1 ≤ N →
  get_recommendations art user_id_input item_id_input N = Ok r →
  allowed_categories r = None →
  als_f r = als_cands r ∧ co_f r = co_cands r ∧ pop_f r = pop_cands r
  ∧ final r
    = take (Z.to_nat N) (distinct_in_order (als_cands r ++ co_cands r ++ pop_cands r)).
Proof. apply unrestricted_request_facts. Qed.

Lemma unrestricted_request_witness :
  1 ≤ 2
  ∧ get_recommendations art_demo "u1" "" 2
    = Ok (the_result (get_recommendations art_demo "u1" "" 2))
  ∧ allowed_categories (the_result (get_recommendations art_demo "u1" "" 2)) = None
  ∧ als_f (the_result (get_recommendations art_demo "u1" "" 2))
    = als_cands (the_result (get_recommendations art_demo "u1" "" 2))
  ∧ co_f (the_result (get_recommendations art_demo "u1" "" 2))
    = co_cands (the_result (get_recommendations art_demo "u1" "" 2))
  ∧ pop_f (the_result (get_recommendations art_demo "u1" "" 2))
    = pop_cands (the_result (get_recommendations art_demo "u1" "" 2))
  ∧ final (the_result (get_recommendations art_demo "u1" "" 2))
    = take (Z.to_nat 2)
        (distinct_in_order
           (als_cands (the_result (get_recommendations art_demo "u1" "" 2))
            ++ co_cands (the_result (get_recommendations art_demo "u1" "" 2))
            ++ pop_cands (the_result (get_recommendations art_demo "u1" "" 2)))).
Proof.
  split; [lia|]. split; [by vm_compute|]. split; [reflexivity|].
  apply (unrestricted_request art_demo "u1" "" 2
           (the_result (get_recommendations art_demo "u1" "" 2)));
    [lia | by vm_compute | reflexivity].
Defined.

(** ** The category-relationship loader *)

Lemma add_relationship_lookup (m : gmap string (gset string)) (row : gmap string string)
    (mc rc : string) :
  rc ∈ default ∅ (add_relationship m row !! mc)
  ↔ rc ∈ default ∅ (m !! mc)
    ∨ (row_get row "main_category" = mc ∧ row_get row "related_category" = rc).
Proof.
  unfold add_relationship. rewrite lookup_insert. case_decide as Hmc.
  - simpl. rewrite elem_of_union, elem_of_singleton, <- Hmc.
    split; [intros [? | ->]; [by left | by right] | intros [? | [_ <-]]; [by left | by right]].
  - split; [by left | intros [? | [? _]]; done].
Qed.

Lemma add_relationship_key (m : gmap string (gset string)) (row : gmap string string)
    (mc : string) :
  is_Some (add_relationship m row !! mc)
  ↔ is_Some (m !! mc) ∨ row_get row "main_category" = mc.
Proof.
  unfold add_relationship. rewrite lookup_insert. case_decide as Hmc.
  - split; [by right | by eexists].
  - split; [by left | intros [? | ?]; done].
Qed.

Lemma foldl_add_relationship_lookup (rows : list (gmap string string))
    (m : gmap string (gset string)) (mc rc : string) :
  rc ∈ default ∅ (foldl add_relationship m rows !! mc)
  ↔ rc ∈ default ∅ (m !! mc)
    ∨ ∃ row, row ∈ rows ∧ row_get row "main_category" = mc
             ∧ row_get row "related_category" = rc.
Proof.
  revert m. induction rows as [|row rest IH]; intros m; simpl.
  - split; [by left|]. intros [? | (row & Hrow & _)]; [done | by apply elem_of_nil in Hrow].
  - rewrite IH, add_relationship_lookup. split.
    + intros [[? | [? ?]] | (row' & ? & ? & ?)]; [by left | right | right].
      * exists row. split; [left | done].
      * exists row'. split; [by right | done].
    + intros [? | (row' & Hrow' & ? & ?)]; [by left; left|].
      apply elem_of_cons in Hrow' as [-> | ?]; [left; by right | right; by exists row'].
Qed.

Lemma foldl_add_relationship_key (rows : list (gmap string string))
    (m : gmap string (gset string)) (mc : string) :
  is_Some (foldl add_relationship m rows !! mc)
  ↔ is_Some (m !! mc) ∨ ∃ row, row ∈ rows ∧ row_get row "main_category" = mc.
Proof.
  revert m. induction rows as [|row rest IH]; intros m; simpl.
  - split; [by left|]. intros [? | (row & Hrow & _)]; [done | by apply elem_of_nil in Hrow].
  - rewrite IH, add_relationship_key. split.
    + intros [[? | ?] | (row' & ? & ?)]; [by left | right | right].
      * exists row. split; [left | done].
      * exists row'. split; [by right | done].
    + intros [? | (row' & Hrow' & ?)]; [by left; left|].
      apply elem_of_cons in Hrow' as [-> | ?]; [left; by right | right; by exists row'].
Qed.

(** X12.  The relationship map built from a table relates [mc] to [rc]
    exactly when some row of the table has that pair, a missing column
    reading as the empty text; its keys are exactly the main categories of
    the rows; the relation is taken as written, one way only; and an
    absent or unreadable table gives the empty map. *)
Theorem load_cat_rel_map_relates (rows : list (gmap string string)) (mc rc : string) :
  (rc ∈ default ∅ (load_cat_rel_map (CatRelRows rows) !! mc)
   ↔ ∃ row, row ∈ rows ∧ row_get row "main_category" = mc
            ∧ row_get row "related_category" = rc)
  ∧ (is_Some (load_cat_rel_map (CatRelRows rows) !! mc)
     ↔ ∃ row, row ∈ rows ∧ row_get row "main_category" = mc)
  ∧ load_cat_rel_map CatRelAbsent = ∅
  ∧ load_cat_rel_map CatRelUnreadable = ∅.
Proof.
  simpl. split_and!; [| | done | done].
  - rewrite foldl_add_relationship_lookup, lookup_empty. simpl.
    split; [intros [Hin | ?]; [by apply not_elem_of_empty in Hin | done] | by right].
  - rewrite foldl_add_relationship_key, lookup_empty.
    split; [intros [[? ?] | ?]; done | by right].
Qed.

(** ** The display table *)

Lemma item_row_cells (it : string) (meta : gmap string cell) :
  item_row it meta !! "item_id" = Some (Text it)
  ∧ item_row it meta !! "title" = Some (default (Text "") (meta !! "title"))
  ∧ item_row it meta !! "brand" = Some (default (Text "") (meta !! "brand"))
  ∧ item_row it meta !! "category" = Some (default (Text "") (meta !! "category_id"))
  ∧ item_row it meta !! "price" = Some (default (Text "") (meta !! "price"))
  ∧ dom (item_row it meta)
    = ({["item_id"]} ∪ {["title"]} ∪ {["brand"]} ∪ {["category"]} ∪ {["price"]}
       : gset string).
Proof.
  unfold item_row. split_and!.
  1-5: by repeat first [rewrite lookup_insert_eq | rewrite lookup_insert_ne by done].
  rewrite !dom_insert_L, dom_empty_L. set_solver.
Qed.

(** X13.  The display table has one row per item, in the order of the
    items; each row has the five columns item_id, title, brand, category
    and price, holds the item in item_id and the resolved metadata in the
    others, and an item without metadata gets empty cells: building the
    table never fails. *)
Theorem show_item_info_rows (art : Artifacts) (items : list string) :
  ∃ rows,
    show_item_info art items = Ok rows
    ∧ length rows = length items
    ∧ ∀ i it, items !! i = Some it →
        ∃ row meta,
          rows !! i = Some row
          ∧ get_meta_by_item_id art it = Ok meta
          ∧ row !! "item_id" = Some (Text it)
          ∧ row !! "title" = Some (default (Text "") (meta !! "title"))
          ∧ row !! "brand" = Some (default (Text "") (meta !! "brand"))
          ∧ row !! "category" = Some (default (Text "") (meta !! "category_id"))
          ∧ row !! "price" = Some (default (Text "") (meta !! "price"))
          ∧ dom row
            = ({["item_id"]} ∪ {["title"]} ∪ {["brand"]} ∪ {["category"]} ∪ {["price"]}
               : gset string)
          ∧ (code_lookup_misses art it → prod_meta_by_itemid art !! it = None →
             row !! "title" = Some (Text "") ∧ row !! "brand" = Some (Text "")
             ∧ row !! "category" = Some (Text "") ∧ row !! "price" = Some (Text "")).
Proof.
  destruct (show_item_info_returns art items) as [rows Hrows].
  exists rows. split; [done|]. split.
  { unfold show_item_info in Hrows. by apply comprehension_length in Hrows. }
  intros i it Hi. unfold show_item_info in Hrows.
  destruct (comprehension_lookup _ _ _ i it Hrows Hi) as (row & Hrow & Hf).
  destruct (get_meta_by_item_id_returns art it) as [meta Hmeta].
  rewrite Hmeta in Hf. simpl in Hf. injection Hf as <-.
  exists (item_row it meta), meta.
  destruct (item_row_cells it meta) as (H1 & H2 & H3 & H4 & H5 & H6).
  split_and!; try done.
  intros Hmiss Hnone.
  rewrite (get_meta_fallback art it Hmiss), Hnone in Hmeta. simpl in Hmeta.
  injection Hmeta as <-. rewrite H2, H3, H4, H5. by split_and!.
Qed.

(** ** Encoder round trips seen from the resolver *)

(** X14.  The item encoder's two directions agree: an identifier it knows
    decodes back from its code, and with duplicate-free classes a code
    encodes back from its identifier.  So a candidate that a generator
    decoded from code [c] is resolved through the code-indexed entry of
    [c] whenever that entry exists. *)
Theorem resolver_follows_code (art : Artifacts) (c : Z) (x : string)
    (meta : gmap string cell) :
  NoDup (classes_ (item_le art)) →
  inverse_transform (item_le art) c = Ok x →
  prod_meta_index art !! str c = Some meta →
  meta ≠ ∅ →
  transform (item_le art) x = Ok c
  ∧ get_meta_by_item_id art x = Ok meta
  ∧ (∀ y code, transform (item_le art) y = Ok code →
               inverse_transform (item_le art) code = Ok y).
Proof.
  intros Hnd Hx Hm Hne.
  pose proof (inverse_transform_round_trip _ _ _ Hnd Hx) as Ht.
  split_and!; [done | by eapply get_meta_by_code |].
  intros y code. apply transform_inverse.
Qed.

Lemma resolver_follows_code_witness :
  NoDup (classes_ (item_le art_demo))
  ∧ inverse_transform (item_le art_demo) 0 = Ok "p1"
  ∧ prod_meta_index art_demo !! str 0
    = Some (<["item_id" := Text "p1"]> (meta_of "c1" "kettle"))
  ∧ <["item_id" := Text "p1"]> (meta_of "c1" "kettle") ≠ ∅
  ∧ transform (item_le art_demo) "p1" = Ok 0
  ∧ get_meta_by_item_id art_demo "p1"
    = Ok (<["item_id" := Text "p1"]> (meta_of "c1" "kettle"))
  ∧ (∀ y code, transform (item_le art_demo) y = Ok code →
               inverse_transform (item_le art_demo) code = Ok y).
Proof.
  assert (NoDup (classes_ (item_le art_demo))) as Hnd.
  { apply (bool_decide_unpack _). by vm_compute. }
  assert (<["item_id" := Text "p1"]> (meta_of "c1" "kettle") ≠ (∅ : gmap string cell))
    as Hne.
  { apply insert_non_empty. }
  split; [exact Hnd|]. split; [reflexivity|]. split; [reflexivity|]. split; [exact Hne|].
  apply (resolver_follows_code art_demo 0 "p1"
           (<["item_id" := Text "p1"]> (meta_of "c1" "kettle")));
    [exact Hnd | reflexivity | reflexivity | exact Hne].
Defined.

(** ** Whole requests *)

(** X15.  With a duplicate-free item encoder and a popularity list of at
    least N pairwise distinct codes, a request that goes through returns
    exactly N items, whatever the filter removed. *)
Theorem distinct_popularity_meets_quota (art : Artifacts)
    (user_id_input item_id_input : string) (N : Z) (r : Recommendation) :
  1 ≤ N →
  NoDup (classes_ (item_le art)) →
  NoDup (popular_items art) →
  N ≤ len (popular_items art) →
  get_recommendations art user_id_input item_id_input N = Ok r →
  len (final r) = N ∧ NoDup (final r).
Proof.
  intros HN Hcls Hpop Hlen Hr. split.
  - by eapply final_full_when_popular_distinct.
  - apply get_recommendations_Ok in Hr as (_ & _ & _ & _ & _ & _ & _ & -> & _).
    apply merge_NoDup.
Qed.

Lemma distinct_popularity_meets_quota_witness :
  1 ≤ 3
  ∧ NoDup (classes_ (item_le art_demo))
  ∧ NoDup (popular_items art_demo)
  ∧ 3 ≤ len (popular_items art_demo)
  ∧ get_recommendations art_demo "u1" "p1" 3
    = Ok (the_result (get_recommendations art_demo "u1" "p1" 3))
  ∧ len (final (the_result (get_recommendations art_demo "u1" "p1" 3))) = 3
  ∧ NoDup (final (the_result (get_recommendations art_demo "u1" "p1" 3))).
Proof.
  assert (NoDup (classes_ (item_le art_demo))) as Hcls.
  { apply (bool_decide_unpack _). by vm_compute. }
  assert (NoDup (popular_items art_demo)) as Hpop.
  { apply (bool_decide_unpack _). by vm_compute. }
  split; [lia|]. split; [exact Hcls|]. split; [exact Hpop|]. split; [by vm_compute|].
  split; [by vm_compute|].
  apply (distinct_popularity_meets_quota art_demo "u1" "p1" 3
           (the_result (get_recommendations art_demo "u1" "p1" 3)));
    [lia | exact Hcls | exact Hpop | by vm_compute | by vm_compute].
Defined.

Lemma attribution_no_groups (l : list string) :
  attribution [] [] l = replicate (length l) Popular.
Proof.
  unfold attribution. induction l as [|y rest IH]; [done|]. simpl. by rewrite IH.
Qed.

(** X16.  Cold start: for a user the user encoder does not know and a
    current item that is blank or has no metadata, and that the item
    encoder does not know, there are no personalized and no co-view
    candidates and no restriction; for a count of at least one the result
    is the first N distinct popularity candidates, every one labelled
    [Popular]. *)
Theorem cold_start_is_popularity (art : Artifacts) (user_id_input item_id_input : string)
    (N : Z) (r : Recommendation) :
  1 ≤ N →
  user_id_input ∉ classes_ (user_le art) →
  item_id_input ∉ classes_ (item_le art) →
  item_id_input = "" ∨ prod_meta_by_itemid art !! item_id_input = None →
  get_recommendations art user_id_input item_id_input N = Ok r →
  als_cands r = [] ∧ co_cands r = [] ∧ allowed_categories r = None
  ∧ final r = take (Z.to_nat N) (distinct_in_order (pop_cands r))
  ∧ reasons r = replicate (length (final r)) Popular.
Proof.
  intros HN Hu Hi Hblank Hr.
  apply get_recommendations_Ok in Hr as Hsteps.
  destruct Hsteps as (Hdet & Hals & Hco & _ & _ & _ & _ & _ & Hreasons).
  assert (als_cands r = []) as Ha.
  { revert Hals. unfold als_recommend, in_list. rewrite bool_decide_false by done.
    simpl. by intros [= <-]. }
  assert (co_cands r = []) as Hc.
  { destruct (co_view_recommend_Ok art _ _ _ Hco) as [? | (code & Ht & _)]; [done|].
    destruct Hi. apply transform_known. by exists code. }
  assert (allowed_categories r = None) as Hnone.
  { revert Hdet. unfold determine_allowed, truthy.
    case_bool_decide as Hne; [| by intros [= <-]].
    destruct Hblank as [-> | Hmeta]; [done|].
    rewrite get_meta_fallback, Hmeta; simpl.
    - by intros [= <-].
    - intros code meta Ht. destruct Hi. apply transform_known. by exists code. }
  destruct (unrestricted_request_facts art user_id_input item_id_input N r HN Hr Hnone)
    as (Hfa & Hfc & _ & Hfin).
  split_and!; [exact Ha | exact Hc | exact Hnone | |].
  { rewrite Hfin, Ha, Hc. done. }
  rewrite Hreasons, Hfa, Hfc, Ha, Hc. apply attribution_no_groups.
Qed.

Lemma cold_start_is_popularity_witness :
  1 ≤ 2
  ∧ ("zz" ∉ classes_ (user_le art_demo))
  ∧ ("p9" ∉ classes_ (item_le art_demo))
  ∧ ("p9" = "" ∨ prod_meta_by_itemid art_demo !! "p9" = None)
  ∧ get_recommendations art_demo "zz" "p9" 2
    = Ok (the_result (get_recommendations art_demo "zz" "p9" 2))
  ∧ als_cands (the_result (get_recommendations art_demo "zz" "p9" 2)) = []
  ∧ co_cands (the_result (get_recommendations art_demo "zz" "p9" 2)) = []
  ∧ allowed_categories (the_result (get_recommendations art_demo "zz" "p9" 2)) = None
  ∧ final (the_result (get_recommendations art_demo "zz" "p9" 2))
    = take (Z.to_nat 2)
        (distinct_in_order (pop_cands (the_result (get_recommendations art_demo "zz" "p9" 2))))
  ∧ reasons (the_result (get_recommendations art_demo "zz" "p9" 2))
    = replicate (length (final (the_result (get_recommendations art_demo "zz" "p9" 2))))
        Popular.
Proof.
  assert ("zz" ∉ classes_ (user_le art_demo)) as Hu.
  { apply (bool_decide_unpack _). by vm_compute. }
  assert ("p9" ∉ classes_ (item_le art_demo)) as Hi.
  { apply (bool_decide_unpack _). by vm_compute. }
  split; [lia|]. split; [exact Hu|]. split; [exact Hi|]. split; [by right|].
  split; [by vm_compute|].
  apply (cold_start_is_popularity art_demo "zz" "p9" 2
           (the_result (get_recommendations art_demo "zz" "p9" 2)));
    [lia | exact Hu | exact Hi | by right | by vm_compute].
Defined.



